(** * Zireael: scripts/unicode/gen_unicode_tables.py

    A shallow embedding of the Unicode table generator: the line parser,
    the two range mergers, the invariant validator and the table emitter,
    with the properties of each that the specification states.

    Python's [int] is unbounded, so codepoints are [Z].  A [str] is a
    [string]; its characters are read as code points below 256.  Tuples
    are products.  A raised [ValueError] is the left injection of a sum
    and carries the message the source builds. *)

From Stdlib Require Import ZArith List Bool Lia String Ascii.
From Stdlib Require Import Sorting.Sorted Sorting.Permutation.
Import ListNotations.
Open Scope Z_scope.

(** ** Text: characters, [str.strip], [str.split], [int(s, 16)] *)

Definition nl : string := String (ascii_of_nat 10) EmptyString.

(** [str.isspace] on one character (code points below 256). *)
Definition isspace (c : ascii) : bool :=
  let n := N_of_ascii c in
  (((9 <=? n) && (n <=? 13)) || ((28 <=? n) && (n <=? 32))
   || (n =? 133) || (n =? 160))%N.

Definition in_range (a b c : ascii) : bool :=
  ((N_of_ascii a <=? N_of_ascii c) && (N_of_ascii c <=? N_of_ascii b))%N.

Definition is_digit (c : ascii) : bool := in_range "0" "9" c.
Definition is_upper (c : ascii) : bool := in_range "A" "Z" c.
Definition is_lower (c : ascii) : bool := in_range "a" "z" c.

(** The character class [[0-9A-Fa-f.]] of [_DATA_RE]. *)
Definition is_cp_char (c : ascii) : bool :=
  is_digit c || in_range "A" "F" c || in_range "a" "f" c || (c =? ".")%char.

(** The character class [[A-Za-z_]] of [_DATA_RE]. *)
Definition is_prop_char (c : ascii) : bool :=
  is_upper c || is_lower c || (c =? "_")%char.

(** [\w] of a [str] pattern: alphanumeric or underscore.  Above 127 the
    alphanumerics below 256 are the Latin-1 letters and the characters
    with a numeric value. *)
Definition is_word (c : ascii) : bool :=
  let n := N_of_ascii c in
  is_digit c || is_upper c || is_lower c || (c =? "_")%char
  || ((n =? 170) || (n =? 178) || (n =? 179) || (n =? 181) || (n =? 185)
      || (n =? 186) || (n =? 188) || (n =? 189) || (n =? 190)
      || ((192 <=? n) && (n <=? 214)) || ((216 <=? n) && (n <=? 246))
      || ((248 <=? n) && (n <=? 255)))%N.

Fixpoint lstrip_by (p : ascii -> bool) (s : string) : string :=
  match s with
  | EmptyString => EmptyString
  | String c t => if p c then lstrip_by p t else s
  end.

Fixpoint rstrip_by (p : ascii -> bool) (s : string) : string :=
  match s with
  | EmptyString => EmptyString
  | String c t =>
      match rstrip_by p t with
      | EmptyString => if p c then EmptyString else String c EmptyString
      | t' => String c t'
      end
  end.

(** [s.strip()] *)
Definition strip (s : string) : string :=
  rstrip_by isspace (lstrip_by isspace s).

(** [s.startswith("#")] *)
Definition startswith_hash (s : string) : bool :=
  match s with
  | String c _ => (c =? "#")%char
  | EmptyString => false
  end.

(** [field.split("..", 1)] when [".." in field]: the text before and
    after the first occurrence; [None] when there is none. *)
Fixpoint split_dotdot (s : string) : option (string * string) :=
  match s with
  | EmptyString => None
  | String c t =>
      match t with
      | String d u =>
          if ((c =? ".") && (d =? "."))%char then Some (EmptyString, u)
          else match split_dotdot t with
               | Some (a, b) => Some (String c a, b)
               | None => None
               end
      | EmptyString => None
      end
  end.

Fixpoint take_while (p : ascii -> bool) (s : string) : string :=
  match s with
  | EmptyString => EmptyString
  | String c t => if p c then String c (take_while p t) else EmptyString
  end.

Fixpoint drop_while (p : ascii -> bool) (s : string) : string :=
  match s with
  | EmptyString => EmptyString
  | String c t => if p c then drop_while p t else s
  end.

(** Exceptions.  Every error the generator raises itself is a
    [ValueError]; the message is what tells them apart. *)
Inductive exn : Type :=
| ValueError (msg : string).

Definition result (A : Type) : Type := (exn + A)%type.

Definition bind {A B : Type} (m : result A) (k : A -> result B) : result B :=
  match m with
  | inl e => inl e
  | inr a => k a
  end.

Notation "x <- m ;; k" := (bind m (fun x => k))
  (at level 61, m at next level, right associativity).
Notation "' pat <- m ;; k" := (bind m (fun x => match x with pat => k end))
  (at level 61, pat pattern, m at next level, right associativity).

Definition hex_val (c : ascii) : option Z :=
  let n := Z.of_N (N_of_ascii c) in
  if is_digit c then Some (n - 48)
  else if in_range "A" "F" c then Some (n - 55)
  else if in_range "a" "f" c then Some (n - 87)
  else None.

(** The digits of an integer literal: hex digits, with single
    underscores allowed between two digits.  [us] says that a digit must
    come next (start of the digits, or just after an underscore). *)
Fixpoint int_digits (acc : Z) (us : bool) (s : string) : option Z :=
  match s with
  | EmptyString => if us then None else Some acc
  | String c t =>
      if (c =? "_")%char then (if us then None else int_digits acc true t)
      else match hex_val c with
           | Some d => int_digits (16 * acc + d) false t
           | None => None
           end
  end.

(** After the sign: an optional [0x]/[0X] prefix, which one underscore
    may follow, then the digits. *)
Definition int_unsigned (s : string) : option Z :=
  match s with
  | String z (String x t) =>
      if ((z =? "0") && ((x =? "x") || (x =? "X")))%char then
        match t with
        | String u t' =>
            if (u =? "_")%char then int_digits 0 true t'
            else int_digits 0 true t
        | EmptyString => int_digits 0 true t
        end
      else int_digits 0 true s
  | _ => int_digits 0 true s
  end.

(** [repr] of a string with no quote, backslash or unprintable
    character, which is all that [_DATA_RE] lets into a field. *)
Definition repr (s : string) : string := ("'" ++ s ++ "'")%string.

(** The whitespace [int] ignores around a literal: the C locale's, and
    the whitespace above 127; not the separators 28 to 31. *)
Definition int_space (c : ascii) : bool :=
  let n := N_of_ascii c in
  (((9 <=? n) && (n <=? 13)) || (n =? 32) || (n =? 133) || (n =? 160))%N.

(** [int(s, 16)]: surrounding whitespace is ignored, a sign may lead. *)
Definition int16 (s : string) : result Z :=
  let bad :=
    inl (ValueError ("invalid literal for int() with base 16: " ++ repr s)%string) in
  match rstrip_by int_space (lstrip_by int_space s) with
  | String c t =>
      if (c =? "-")%char then
        match int_unsigned t with Some z => inr (- z) | None => bad end
      else if (c =? "+")%char then
        match int_unsigned t with Some z => inr z | None => bad end
      else
        match int_unsigned (String c t) with Some z => inr z | None => bad end
  | EmptyString => bad
  end.

(** ** Number formatting: the format specs [X] and [04X] *)

Definition hex_digit_upper (d : Z) : ascii :=
  ascii_of_N (Z.to_N (if d <? 10 then d + 48 else d + 55)).

(** The hex digits of [x >= 0] in front of [acc]: the last digit is put
    in front first, then the digits of [x / 16] in front of it.  [fuel]
    bounds the number of digits; [hex_upper_spec] shows that the fuel
    [hex_upper] gives is enough. *)
Fixpoint hex_upper_aux (fuel : nat) (x : Z) (acc : string) : string :=
  match fuel with
  | O => acc
  | S f =>
      let acc' := String (hex_digit_upper (x mod 16)) acc in
      if x / 16 =? 0 then acc' else hex_upper_aux f (x / 16) acc'
  end.

Definition hex_upper (x : Z) : string :=
  hex_upper_aux (S (Z.to_nat (Z.log2 x))) x EmptyString.

Fixpoint zeros (n : nat) : string :=
  match n with
  | O => EmptyString
  | S k => String "0" (zeros k)
  end.

Definition zfill (width : nat) (s : string) : string :=
  (zeros (width - String.length s) ++ s)%string.

(** [format(x, "X")] *)
Definition format_X (x : Z) : string :=
  if x <? 0 then String "-" (hex_upper (- x)) else hex_upper x.

(** [format(x, "04X")]: the sign counts towards the width of four. *)
Definition format_04X (x : Z) : string :=
  if x <? 0 then String "-" (zfill 3 (hex_upper (- x)))
  else zfill 4 (hex_upper x).

(** ** [sorted(xs, key=...)]

    Python's [sorted] is stable: elements with equal keys keep their
    input order.  [leb a b] is [key(a) <= key(b)].  Insertion from the
    right, placing an element before the first one whose key is not
    smaller, is such a stable sort. *)

Fixpoint insert_by {A : Type} (leb : A -> A -> bool) (x : A) (l : list A)
  : list A :=
  match l with
  | [] => [x]
  | y :: t => if leb x y then x :: y :: t else y :: insert_by leb x t
  end.

Fixpoint sorted {A : Type} (leb : A -> A -> bool) (l : list A) : list A :=
  match l with
  | [] => []
  | x :: t => insert_by leb x (sorted leb t)
  end.

(** ** Ranges and the two mergers *)

Definition range : Type := (Z * Z)%type.
Definition vrange : Type := (Z * Z * string)%type.

Definition lo (r : vrange) : Z := fst (fst r).
Definition hi (r : vrange) : Z := snd (fst r).
Definition val (r : vrange) : string := snd r.

(** Tuple comparison of the key [(x[0], x[1])]. *)
Definition key2_leb (a b : range) : bool :=
  (fst a <? fst b) || ((fst a =? fst b) && (snd a <=? snd b)).

(** Tuple comparison of the key [(x[0], x[1], x[2])]. *)
Definition key3_leb (a b : vrange) : bool :=
  (lo a <? lo b)
  || ((lo a =? lo b)
      && ((hi a <? hi b) || ((hi a =? hi b) && (val a <=? val b)%string))).

(** The key [(x[0], x[1])] on valued rows, as the validator sorts. *)
Definition key_lohi_leb (a b : vrange) : bool :=
  (lo a <? lo b) || ((lo a =? lo b) && (hi a <=? hi b)).

(** The loop of [_merge_ranges] over [ranges[1:]]. *)
Fixpoint merge_loop (cur_lo cur_hi : Z) (rest out : list range) : list range :=
  match rest with
  | [] => out ++ [(cur_lo, cur_hi)]
  | (lo, hi) :: t =>
      if lo <=? cur_hi + 1 then merge_loop cur_lo (Z.max cur_hi hi) t out
      else merge_loop lo hi t (out ++ [(cur_lo, cur_hi)])
  end.

Definition _merge_ranges (ranges : list range) : list range :=
  match ranges with
  | [] => []
  | _ =>
      match sorted key2_leb ranges with
      | [] => []
      | (cur_lo, cur_hi) :: rest => merge_loop cur_lo cur_hi rest []
      end
  end.

(** The loop of [_merge_valued_ranges] over [ranges[1:]]. *)
Fixpoint merge_valued_loop (cur_lo cur_hi : Z) (cur_v : string)
  (rest out : list vrange) : list vrange :=
  match rest with
  | [] => out ++ [(cur_lo, cur_hi, cur_v)]
  | (lo, hi, v) :: t =>
      if (v =? cur_v)%string && (lo <=? cur_hi + 1)
      then merge_valued_loop cur_lo (Z.max cur_hi hi) cur_v t out
      else merge_valued_loop lo hi v t (out ++ [(cur_lo, cur_hi, cur_v)])
  end.

Definition _merge_valued_ranges (ranges : list vrange) : list vrange :=
  match ranges with
  | [] => []
  | _ =>
      match sorted key3_leb ranges with
      | [] => []
      | (cur_lo, cur_hi, cur_v) :: rest =>
          merge_valued_loop cur_lo cur_hi cur_v rest []
      end
  end.

(** ** The invariant validator *)

Definition OverlapError (label : string) (lo : Z) : exn :=
  ValueError (label ++ ": overlapping ranges at U+" ++ format_04X lo)%string.

(** The loop of [_assert_disjoint_sorted]. *)
Fixpoint disjoint_loop (label : string) (prev_hi : Z) (ranges : list vrange)
  : result unit :=
  match ranges with
  | [] => inr tt
  | (lo, hi, _) :: t =>
      if lo <=? prev_hi then inl (OverlapError label lo)
      else disjoint_loop label hi t
  end.

Definition _assert_disjoint_sorted (ranges : list vrange) (label : string)
  : result unit :=
  disjoint_loop label (-1) (sorted key_lohi_leb ranges).

(** ** The line parser *)

Definition _parse_codepoint_range (field : string) : result (Z * Z) :=
  let field := strip field in
  match split_dotdot field with
  | Some (a, b) =>
      x <- int16 a ;; y <- int16 b ;; inr (x, y)
  | None =>
      x <- int16 field ;; y <- int16 field ;; inr (x, y)
  end.

(** [_DATA_RE.match(line)], the pattern being
    [^([0-9A-Fa-f.]+)\s*;\s*([A-Za-z_]+)\b]; the result is groups 1 and 2.
    Each repetition is followed by something outside its own class, so
    the greedy match is the only candidate: a shorter repetition leaves
    a character of the class where the pattern wants another one.  The
    final [\b] holds at the end of the text or before a non-word
    character. *)
Definition _DATA_RE_match (line : string) : option (string * string) :=
  let g1 := take_while is_cp_char line in
  match g1 with
  | EmptyString => None
  | _ =>
      match drop_while isspace (drop_while is_cp_char line) with
      | String ";" r =>
          let r := drop_while isspace r in
          let g2 := take_while is_prop_char r in
          match g2 with
          | EmptyString => None
          | _ =>
              match drop_while is_prop_char r with
              | EmptyString => Some (g1, g2)
              | String c _ => if is_word c then None else Some (g1, g2)
              end
          end
      | _ => None
      end
  end.

Definition RangeError (cp_field path : string) : exn :=
  ValueError ("invalid codepoint range " ++ cp_field ++ " in " ++ path)%string.

(** [prop not in wanted], for [wanted: set[str] | None]. *)
Definition not_wanted (wanted : option (list string)) (prop : string) : bool :=
  match wanted with
  | None => false
  | Some w => negb (existsb (String.eqb prop) w)
  end.

(** One turn of the loop of [_parse_property_file]: [rows] is the list
    built so far, the result is the list after this line. *)
Definition parse_line (path : string) (wanted : option (list string))
  (rows : list vrange) (line : string) : result (list vrange) :=
  let line := strip line in
  if (line =? "")%string || startswith_hash line then inr rows
  else
    match _DATA_RE_match line with
    | None => inr rows
    | Some (cp_field, prop) =>
        if not_wanted wanted prop then inr rows
        else
          '(lo, hi) <- _parse_codepoint_range cp_field ;;
          if (lo <? 0) || (hi >? 0x10FFFF) || (lo >? hi)
          then inl (RangeError cp_field path)
          else inr (rows ++ [(lo, hi, prop)])
    end.

Fixpoint parse_lines (path : string) (wanted : option (list string))
  (rows : list vrange) (lines : list string) : result (list vrange) :=
  match lines with
  | [] => inr rows
  | line :: t =>
      rows' <- parse_line path wanted rows line ;;
      parse_lines path wanted rows' t
  end.

(** [_parse_property_file(path, wanted)]; [lines] is what
    [_read_lines(path)] returns. *)
Definition _parse_property_file (path : string) (lines : list string)
  (wanted : option (list string)) : result (list vrange) :=
  parse_lines path wanted [] lines.

(** ** The table emitter *)

Definition gcb_map : list (string * string) :=
  [ ("CR", "ZR_GCB_CR"); ("LF", "ZR_GCB_LF"); ("Control", "ZR_GCB_CONTROL");
    ("Extend", "ZR_GCB_EXTEND"); ("ZWJ", "ZR_GCB_ZWJ");
    ("Regional_Indicator", "ZR_GCB_REGIONAL_INDICATOR");
    ("Prepend", "ZR_GCB_PREPEND"); ("SpacingMark", "ZR_GCB_SPACINGMARK");
    ("L", "ZR_GCB_L"); ("V", "ZR_GCB_V"); ("T", "ZR_GCB_T");
    ("LV", "ZR_GCB_LV"); ("LVT", "ZR_GCB_LVT") ]%string.

(** [d.get(k)] *)
Fixpoint dict_get (d : list (string * string)) (k : string) : option string :=
  match d with
  | [] => None
  | (k', v) :: t => if (k' =? k)%string then Some v else dict_get t k
  end.

Definition fmt_u32 (x : Z) : string :=
  if x <=? 0xFFFF then ("0x" ++ format_04X x ++ "u")%string
  else ("0x" ++ format_X x ++ "u")%string.

(** [sep.join(lines)] *)
Fixpoint join (sep : string) (lines : list string) : string :=
  match lines with
  | [] => EmptyString
  | [x] => x
  | x :: t => (x ++ sep ++ join sep t)%string
  end.

Definition UnmappedSymbolError (prop : string) : exn :=
  ValueError ("unmapped GCB prop: " ++ prop)%string.

(** The loop of [emit_ranges8]: [lines] is the list built so far. *)
Fixpoint emit_ranges8_loop (rows : list vrange) (lines : list string)
  : result (list string) :=
  match rows with
  | [] => inr lines
  | (lo, hi, prop) :: t =>
      match dict_get gcb_map prop with
      | None => inl (UnmappedSymbolError prop)
      | Some enum_name =>
          emit_ranges8_loop t
            (lines ++ [("  {" ++ fmt_u32 lo ++ ", " ++ fmt_u32 hi
                        ++ ", (uint8_t)" ++ enum_name
                        ++ ", {0u, 0u, 0u}},")%string])
      end
  end.

Definition emit_ranges8 (name : string) (rows : list vrange) : result string :=
  lines <- emit_ranges8_loop rows
             [("static const zr_unicode_range8_t " ++ name ++ "[] = {")%string] ;;
  inr (join nl (lines ++ ["};"%string])).

Fixpoint emit_ranges_loop (rows : list range) (lines : list string)
  : list string :=
  match rows with
  | [] => lines
  | (lo, hi) :: t =>
      emit_ranges_loop t
        (lines ++ [("  {" ++ fmt_u32 lo ++ ", " ++ fmt_u32 hi ++ "},")%string])
  end.

Definition emit_ranges (name : string) (rows : list range) : string :=
  let lines :=
    emit_ranges_loop rows
      [("static const zr_unicode_range_t " ++ name ++ "[] = {")%string] in
  join nl (lines ++ ["};"%string]).

Definition UNICODE_VERSION : string := "15.1.0".

(** U+2014 as the three bytes that reach the file. *)
Definition em_dash : string :=
  String (ascii_of_nat 226) (String (ascii_of_nat 128)
    (String (ascii_of_nat 148) EmptyString)).

(** The dedented header. *)
Definition hdr : string :=
  ("/*" ++ nl
   ++ "  src/unicode/zr_unicode_data_tables_15_1_0.inc " ++ em_dash
   ++ " Generated Unicode " ++ UNICODE_VERSION ++ " tables." ++ nl
   ++ nl
   ++ "  Why: Provides immutable, deterministic property ranges for grapheme iteration and width."
   ++ nl ++ nl
   ++ "  Generated by: scripts/unicode/gen_unicode_tables.py" ++ nl
   ++ "*/" ++ nl)%string.

(** What the run does to the file system on the output side, in order. *)
Inductive fs_event : Type :=
| MkdirParent (out_path : string)
| WriteText (out_path : string) (text : string).

(** A computation that logs file-system events and may raise. *)
Definition io (A : Type) : Type := (list fs_event * result A)%type.

Definition io_bind {A B : Type} (m : io A) (k : A -> io B) : io B :=
  match m with
  | (tr, inl e) => (tr, inl e)
  | (tr, inr a) => let '(tr', r) := k a in (tr ++ tr', r)
  end.

Definition io_lift {A : Type} (r : result A) : io A := ([], r).

(** A call on the output side is logged when the run reaches it.  The
    errors the operating system can raise in [mkdir] and [write_text]
    are left out on this side: the log says which calls a run reaches,
    and the errors followed here are the [ValueError]s of the
    program. *)
Definition io_do (ev : fs_event) : io unit := ([ev], inr tt).

Notation "x <-- m ;; k" := (io_bind m (fun x => k))
  (at level 61, m at next level, right associativity).

Definition _emit_inc (out_path : string) (gcb : list vrange)
  (ep emoji_pres eaw_wide : list range) : io unit :=
  _ <-- io_do (MkdirParent out_path) ;;
  t1 <-- io_lift (emit_ranges8 "kGcbRanges" gcb) ;;
  let body :=
    join (nl ++ nl)%string
      [ t1;
        emit_ranges "kExtendedPictographicRanges" ep;
        emit_ranges "kEmojiPresentationRanges" emoji_pres;
        emit_ranges "kEawWideRanges" eaw_wide ] in
  io_do (WriteText out_path (hdr ++ nl ++ body ++ nl)%string).

Definition gcb_props : list string :=
  [ "CR"; "LF"; "Control"; "Extend"; "ZWJ"; "Regional_Indicator"; "Prepend";
    "SpacingMark"; "L"; "V"; "T"; "LV"; "LVT" ]%string.

(** [[(lo, hi) for lo, hi, prop in rows if prop == name]] *)
Definition ranges_of (name : string) (rows : list vrange) : list range :=
  map fst (filter (fun r => (val r =? name)%string) rows).

(** [main] once [_ensure_sources] has returned: [srcs] gives the path of
    each source and [read_lines] the lines of the file at a path. *)
Definition main (srcs : string -> string) (read_lines : string -> list string)
  (out : string) : io Z :=
  let gcb_path := srcs "GraphemeBreakProperty.txt"%string in
  gcb_rows <-- io_lift (_parse_property_file gcb_path (read_lines gcb_path)
                          (Some gcb_props)) ;;
  let gcb_rows := _merge_valued_ranges gcb_rows in
  _ <-- io_lift (_assert_disjoint_sorted gcb_rows "GCB") ;;
  let emoji_path := srcs "emoji-data.txt"%string in
  emoji_rows <-- io_lift (_parse_property_file emoji_path (read_lines emoji_path)
                            (Some ["Extended_Pictographic"; "Emoji_Presentation"]%string)) ;;
  let ep := _merge_ranges (ranges_of "Extended_Pictographic" emoji_rows) in
  let emoji_pres := _merge_ranges (ranges_of "Emoji_Presentation" emoji_rows) in
  let eaw_path := srcs "EastAsianWidth.txt"%string in
  eaw_rows <-- io_lift (_parse_property_file eaw_path (read_lines eaw_path)
                          (Some ["W"; "F"]%string)) ;;
  let eaw_wide := _merge_ranges (map fst eaw_rows) in
  _ <-- _emit_inc out gcb_rows ep emoji_pres eaw_wide ;;
  io_lift (inr 0).

(** ** The source cache: [_download_to] and [_ensure_sources]

    The file system is a map from paths to the contents of the regular
    files; a [Path] is the string it prints as, and [dir / name] joins
    with a slash.  What the world outside answers is a parameter: the
    network, [urlopen], gives for a URL the data read or the error
    raised; the operating system, [os_answers], says which of the calls
    [exists], [mkdir] and [write_bytes] raise.  The calls that act on
    the world are logged in order. *)

Definition BASE : string :=
  ("https://www.unicode.org/Public/" ++ UNICODE_VERSION ++ "/ucd")%string.

Definition URLS : list (string * string) :=
  [ ("GraphemeBreakProperty.txt",
     BASE ++ "/auxiliary/GraphemeBreakProperty.txt");
    ("emoji-data.txt", BASE ++ "/emoji/emoji-data.txt");
    ("EastAsianWidth.txt", BASE ++ "/EastAsianWidth.txt") ]%string.

Definition path_join (dir name : string) : string :=
  (dir ++ "/" ++ name)%string.

Definition files : Type := string -> option string.

(** [path.write_bytes(data)] when it succeeds. *)
Definition write_bytes (path data : string) (fs : files) : files :=
  fun q => if (q =? path)%string then Some data else fs q.

(** [path.write_bytes(data)] when it raises: [rest] is what is then at
    [path], nothing or a part of the data. *)
Definition write_failed (path : string) (rest : option string) (fs : files)
  : files :=
  fun q => if (q =? path)%string then rest else fs q.

Inductive cache_event : Type :=
| CacheMkdirParent (path : string)
| UrlOpen (url : string)
| WriteBytes (path data : string).

(** An error of the network or of the operating system, with its
    reason. *)
Inductive net_error : Type :=
| URLError (reason : string)
| OSError (reason : string).

(** The answers of the operating system: the error [path.exists()]
    raises, if any; the error [path.parent.mkdir(parents=True,
    exist_ok=True)] raises, if any; the error [path.write_bytes(data)]
    raises, if any, with what it leaves at [path]. *)
Record os_answers : Type := {
  exists_error : string -> option net_error;
  mkdir_error : string -> option net_error;
  write_error : string -> string -> option (net_error * option string)
}.

(** A computation on the file system: the calls logged, the file system
    it leaves (also when it raises), and its outcome. *)
Definition cache (A : Type) : Type :=
  (list cache_event * files * (net_error + A))%type.

(** [_download_to(path, url)]: the parent directory is made, the URL is
    opened and read, the data are written; each of the three can raise,
    and what raises ends the download there. *)
Definition _download_to (os : os_answers)
  (urlopen : string -> net_error + string)
  (path url : string) (fs : files) : cache unit :=
  match mkdir_error os path with
  | Some e => ([CacheMkdirParent path], fs, inl e)
  | None =>
      match urlopen url with
      | inl e => ([CacheMkdirParent path; UrlOpen url], fs, inl e)
      | inr data =>
          match write_error os path data with
          | Some (e, rest) =>
              ([CacheMkdirParent path; UrlOpen url; WriteBytes path data],
               write_failed path rest fs, inl e)
          | None =>
              ([CacheMkdirParent path; UrlOpen url; WriteBytes path data],
               write_bytes path data fs, inr tt)
          end
      end
  end.

(** The loop of [_ensure_sources] over [URLS.items()]; [out] is the
    dictionary built so far, its keys in insertion order. *)
Fixpoint ensure_loop (os : os_answers)
  (urlopen : string -> net_error + string) (dir_path : string)
  (urls out : list (string * string)) (fs : files)
  : cache (list (string * string)) :=
  match urls with
  | [] => ([], fs, inr out)
  | (name, url) :: t =>
      let p := path_join dir_path name in
      match exists_error os p with
      | Some e => ([], fs, inl e)
      | None =>
          match fs p with
          | Some _ => ensure_loop os urlopen dir_path t (out ++ [(name, p)]) fs
          | None =>
              match _download_to os urlopen p url fs with
              | (ev, fs1, inl e) => (ev, fs1, inl e)
              | (ev, fs1, inr _) =>
                  let '(ev2, fs2, r) :=
                    ensure_loop os urlopen dir_path t (out ++ [(name, p)]) fs1 in
                  (ev ++ ev2, fs2, r)
              end
          end
      end
  end.

Definition _ensure_sources (os : os_answers)
  (urlopen : string -> net_error + string)
  (dir_path : string) (fs : files) : cache (list (string * string)) :=
  ensure_loop os urlopen dir_path URLS [] fs.

(** ** Vocabulary of the statements *)

Definition le_by {A : Type} (leb : A -> A -> bool) (a b : A) : Prop :=
  leb a b = true.

(** Codepoint [c] lies in the closed interval [r]. *)
Definition covers (r : range) (c : Z) : Prop := fst r <= c <= snd r.

(** Codepoint [c] lies in some range of [l]. *)
Definition covered (l : list range) (c : Z) : Prop := Exists (fun r => covers r c) l.

(** Row [r] carries value [v] and contains codepoint [c]. *)
Definition vcovers (v : string) (c : Z) (r : vrange) : Prop :=
  val r = v /\ lo r <= c <= hi r.

(** Codepoint [c] lies in some row of [l] that is tagged [v]. *)
Definition vcovered (l : list vrange) (v : string) (c : Z) : Prop :=
  Exists (vcovers v c) l.

(** The order of the key [(lo, hi, value)] as a proposition. *)
Definition le3 (a b : vrange) : Prop :=
  lo a < lo b
  \/ (lo a = lo b
      /\ (hi a < hi b \/ (hi a = hi b /\ (val a <=? val b)%string = true))).

(** The test of the valued loop: row [r] extends the open interval [cur]. *)
Definition extends (cur r : vrange) : bool :=
  (val r =? val cur)%string && (lo r <=? hi cur + 1).

(** The valued loop without the accumulator. *)
Fixpoint mv_from (cur : vrange) (rest : list vrange) : list vrange :=
  match rest with
  | [] => [cur]
  | r :: t =>
      if extends cur r then mv_from (lo cur, Z.max (hi cur) (hi r), val cur) t
      else cur :: mv_from r t
  end.

Definition mv_list (l : list vrange) : list vrange :=
  match l with
  | [] => []
  | cur :: rest => mv_from cur rest
  end.

(** A plain range as a valued row with a constant tag, and back. *)
Definition tag (r : range) : vrange := (fst r, snd r, EmptyString).
Definition untag (r : vrange) : range := fst r.

(** The interval a run of rows closes to: it opens at the first row's
    [lo], carries its value, and ends at the largest [hi] of the run. *)
Definition hull (g : list vrange) : vrange :=
  match g with
  | [] => (0, 0, EmptyString)
  | r :: t => (lo r, fold_left (fun h x => Z.max h (hi x)) t (hi r), val r)
  end.

(** A run the valued merge may close: not empty, and of one value. *)
Definition one_valued (g : list vrange) : Prop :=
  g <> [] /\ Forall (fun r => val r = val (hull g)) g.

(** Two rows of different values share no codepoint. *)
Definition values_apart (rows : list vrange) : Prop :=
  forall r1 r2, In r1 rows -> In r2 rows -> val r1 <> val r2 ->
                hi r1 < lo r2 \/ hi r2 < lo r1.

(** No output event writes the artifact. *)
Definition no_write (tr : list fs_event) : Prop :=
  forall p t, ~ In (WriteText p t) tr.

(** Every character of [s] satisfies [p]. *)
Fixpoint string_forall (p : ascii -> bool) (s : string) : bool :=
  match s with
  | EmptyString => true
  | String c t => p c && string_forall p t
  end.

(** The digits the format specs [X] and [04X] produce. *)
Definition is_upper_hex (c : ascii) : bool := is_digit c || in_range "A" "F" c.

(** The number a run of hex digits denotes, most significant first,
    continuing from [acc]. *)
Fixpoint hex_value (s : string) (acc : Z) : Z :=
  match s with
  | EmptyString => acc
  | String c t =>
      match hex_val c with
      | Some d => hex_value t (16 * acc + d)
      | None => hex_value t (16 * acc)
      end
  end.

(** The digits [fmt_u32] puts between the prefix and the suffix. *)
Definition fmt_digits (x : Z) : string :=
  if x <=? 0xFFFF then format_04X x else format_X x.

(** Line [line] leaves the rows as they are and raises nothing. *)
Definition skipped (path : string) (wanted : option (list string))
  (line : string) : Prop :=
  forall rows, parse_line path wanted rows line = inr rows.

(** The first row the symbol table has no name for, if any. *)
Definition first_unmapped (rows : list vrange) : option vrange :=
  find (fun r => match dict_get gcb_map (val r) with
                 | None => true
                 | Some _ => false
                 end) rows.

(** Row [b] does not extend the interval [a]: the loop closes [a]. *)
Definition unmerged (a b : vrange) : Prop := extends a b = false.

(** Consecutive output rows of the valued merge: [b] starts after [a]
    ends, and leaves a gap when both carry one value. *)
Definition apart (a b : vrange) : Prop :=
  hi a < lo b /\ (val b = val a -> hi a + 1 < lo b).

(** Walking [l] with [prev_hi] as the validator does, some entry starts
    at or before the end of the one before it. *)
Fixpoint overlap_from (prev_hi : Z) (l : list vrange) : Prop :=
  match l with
  | [] => False
  | c :: t => lo c <= prev_hi \/ overlap_from (hi c) t
  end.

(** A list of ranges in the form the unvalued merge returns: each range
    with [lo <= hi], and each later range starting beyond the codepoint
    that follows the end of an earlier one. *)
Definition canonical (l : list range) : Prop :=
  StronglySorted (fun a b => snd a + 1 < fst b) l
  /\ Forall (fun r => fst r <= snd r) l.

(** Row [o] starts where a row of [rows] with its value starts, and ends
    where a row of [rows] with its value ends. *)
Definition from_rows (rows : list vrange) (o : vrange) : Prop :=
  (exists r, In r rows /\ lo r = lo o /\ val r = val o)
  /\ (exists r, In r rows /\ hi r = hi o /\ val r = val o).

(** Rows [a] and [b] share no codepoint. *)
Definition disjoint (a b : vrange) : Prop := hi a < lo b \/ hi b < lo a.

(** A hex digit of either case. *)
Definition is_hex_digit (c : ascii) : bool :=
  is_digit c || in_range "A" "F" c || in_range "a" "f" c.

(** [s] is one run of hex digits, at least one. *)
Definition hex_numeral (s : string) : Prop :=
  s <> EmptyString /\ string_forall is_hex_digit s = true.

(** [f] has the shape [<codepoint>[..<codepoint>]]: one run of hex
    digits, or two of them joined by [..]. *)
Definition codepoint_shape (f : string) : Prop :=
  hex_numeral f
  \/ exists a b,
       f = (a ++ ".." ++ b)%string /\ hex_numeral a /\ hex_numeral b.

(** The line [emit_ranges] writes for a range. *)
Definition range_line (r : range) : string :=
  ("  {" ++ fmt_u32 (fst r) ++ ", " ++ fmt_u32 (snd r) ++ "},")%string.

(** The line [emit_ranges8] writes for a row whose property is mapped. *)
Definition range8_line (r : vrange) : string :=
  ("  {" ++ fmt_u32 (lo r) ++ ", " ++ fmt_u32 (hi r) ++ ", (uint8_t)"
   ++ match dict_get gcb_map (val r) with
      | Some enum_name => enum_name
      | None => EmptyString
      end
   ++ ", {0u, 0u, 0u}},")%string.

(** Event [ev] belongs to the download of the source [name] from
    [url] into the directory [dir]. *)
Definition download_event (urlopen : string -> net_error + string)
  (dir name url : string) (ev : cache_event) : Prop :=
  ev = CacheMkdirParent (path_join dir name)
  \/ ev = UrlOpen url
  \/ exists data,
       urlopen url = inr data /\ ev = WriteBytes (path_join dir name) data.

(** ** Facts about [sorted] *)

Section SortedFacts.
Context {A : Type}.
Variable leb : A -> A -> bool.

Lemma insert_by_perm x l : Permutation (x :: l) (insert_by leb x l).
Proof.
  induction l as [|y t IH]; simpl; [reflexivity|].
  destruct (leb x y); [reflexivity|].
  rewrite perm_swap. now apply perm_skip.
Qed.

Lemma sorted_perm l : Permutation l (sorted leb l).
Proof.
  induction l as [|x t IH]; simpl; [constructor|].
  rewrite <- insert_by_perm. now apply perm_skip.
Qed.

Lemma sorted_in x l : In x (sorted leb l) <-> In x l.
Proof.
  split; apply Permutation_in; [symmetry|]; apply sorted_perm.
Qed.

Lemma insert_by_head x l :
  Forall (le_by leb x) l -> insert_by leb x l = x :: l.
Proof.
  destruct l as [|y t]; simpl; [reflexivity|].
  intros H. inversion H as [|? ? Hy _]; subst. unfold le_by in Hy.
  now rewrite Hy.
Qed.

(** Sorting a list that is already in key order changes nothing. *)
Lemma sorted_fixed l : StronglySorted (le_by leb) l -> sorted leb l = l.
Proof.
  induction 1 as [|x t Hs IH Hx]; simpl; [reflexivity|].
  rewrite IH. now apply insert_by_head.
Qed.

Hypothesis leb_total : forall a b, leb a b = true \/ leb b a = true.
Hypothesis leb_trans :
  forall a b c, leb a b = true -> leb b c = true -> leb a c = true.

Lemma insert_by_sorted x l :
  StronglySorted (le_by leb) l -> StronglySorted (le_by leb) (insert_by leb x l).
Proof.
  induction 1 as [|y t Hs IH Hy]; simpl.
  - repeat constructor.
  - destruct (leb x y) eqn:E.
    + constructor; [now constructor|].
      constructor; [exact E|].
      eapply Forall_impl; [|exact Hy].
      intros z Hz. unfold le_by in *. eauto.
    + constructor; [exact IH|].
      apply Forall_forall. intros z Hz.
      apply (Permutation_in _ (Permutation_sym (insert_by_perm x t))) in Hz.
      destruct Hz as [<-|Hz].
      * destruct (leb_total x y) as [C|C]; [congruence|exact C].
      * rewrite Forall_forall in Hy. now apply Hy.
Qed.

Lemma sorted_sorted l : StronglySorted (le_by leb) (sorted leb l).
Proof.
  induction l as [|x t IH]; simpl; [constructor|].
  now apply insert_by_sorted.
Qed.

Hypothesis leb_antisym :
  forall a b, leb a b = true -> leb b a = true -> a = b.

(** When the key is the whole element, two lists in key order with the
    same elements are the same list. *)
Lemma sorted_lists_unique l1 l2 :
  StronglySorted (le_by leb) l1 -> StronglySorted (le_by leb) l2 ->
  Permutation l1 l2 -> l1 = l2.
Proof.
  intros H1. revert l2.
  induction H1 as [|x t Hs IH Hx]; intros l2 H2 P.
  - now apply Permutation_nil in P.
  - destruct H2 as [|y u Hu Hy].
    + symmetry in P. now apply Permutation_nil in P.
    + assert (x = y) as ->.
      { assert (In x (y :: u)) as [->|I1]
          by (eapply Permutation_in; [exact P|now left]); [reflexivity|].
        assert (In y (x :: t)) as [->|I2]
          by (eapply Permutation_in; [symmetry; exact P|now left]);
          [reflexivity|].
        rewrite Forall_forall in Hx, Hy.
        apply leb_antisym; [now apply Hx|now apply Hy]. }
      f_equal. apply IH; [exact Hu|].
      now apply Permutation_cons_inv in P.
Qed.

Lemma sorted_permutation_invariant l1 l2 :
  Permutation l1 l2 -> sorted leb l1 = sorted leb l2.
Proof.
  intros P. apply sorted_lists_unique; try apply sorted_sorted.
  rewrite <- (sorted_perm l1), <- (sorted_perm l2). exact P.
Qed.

End SortedFacts.

Lemma StronglySorted_mono {A : Type} (R R' : A -> A -> Prop) l :
  (forall a b, R a b -> R' a b) -> StronglySorted R l -> StronglySorted R' l.
Proof.
  intros HR. induction 1 as [|x t Hs IH Hx]; constructor; [exact IH|].
  eapply Forall_impl; [|exact Hx]. auto.
Qed.

Lemma StronglySorted_map {A B : Type} (f : A -> B) (R : B -> B -> Prop) l :
  StronglySorted (fun a b => R (f a) (f b)) l -> StronglySorted R (map f l).
Proof.
  induction 1 as [|x t Hs IH Hx]; simpl; constructor; [exact IH|].
  apply Forall_map. exact Hx.
Qed.

(** ** The three key orders *)

Lemma string_leb_refl s : (s <=? s)%string = true.
Proof.
  destruct (String.leb_total s s); assumption.
Qed.

Lemma ascii_compare_lt_trans a b c :
  Ascii.compare a b = Lt -> Ascii.compare b c = Lt -> Ascii.compare a c = Lt.
Proof.
  unfold Ascii.compare. rewrite !N.compare_lt_iff. lia.
Qed.

Lemma string_compare_trans s1 : forall s2 s3,
  String.compare s1 s2 <> Gt -> String.compare s2 s3 <> Gt ->
  String.compare s1 s3 <> Gt.
Proof.
  induction s1 as [|a s1 IH]; intros [|b s2] [|c s3]; simpl; try congruence.
  destruct (Ascii.compare a b) eqn:E1; try congruence;
    destruct (Ascii.compare b c) eqn:E2; try congruence.
  - apply Ascii.compare_eq_iff in E1, E2. subst.
    assert (Ascii.compare c c = Eq) as ->
        by (unfold Ascii.compare; apply N.compare_refl).
    apply IH.
  - apply Ascii.compare_eq_iff in E1. subst. rewrite E2. congruence.
  - apply Ascii.compare_eq_iff in E2. subst. rewrite E1. congruence.
  - rewrite (ascii_compare_lt_trans _ _ _ E1 E2). congruence.
Qed.

Lemma string_leb_trans s1 s2 s3 :
  (s1 <=? s2)%string = true -> (s2 <=? s3)%string = true ->
  (s1 <=? s3)%string = true.
Proof.
  unfold String.leb. intros H1 H2.
  pose proof (string_compare_trans s1 s2 s3) as T.
  destruct (String.compare s1 s2), (String.compare s2 s3),
    (String.compare s1 s3); try congruence;
    exfalso; apply T; congruence.
Qed.

Lemma key3_leb_le3 a b : key3_leb a b = true <-> le3 a b.
Proof.
  unfold key3_leb, le3.
  rewrite !orb_true_iff, !andb_true_iff, !orb_true_iff, !andb_true_iff,
    !Z.ltb_lt, !Z.eqb_eq.
  reflexivity.
Qed.

Lemma le3_refl a : le3 a a.
Proof. right. split; [reflexivity|]. right. split; [reflexivity|]. apply string_leb_refl. Qed.

Lemma le3_trans a b c : le3 a b -> le3 b c -> le3 a c.
Proof.
  unfold le3. intros H1 H2.
  destruct H1 as [H1|[E1 [H1|[F1 S1]]]], H2 as [H2|[E2 [H2|[F2 S2]]]];
    try (left; lia); try (right; split; [lia|left; lia]).
  right. split; [lia|]. right. split; [lia|].
  eapply string_leb_trans; eassumption.
Qed.

Lemma key3_leb_total a b : key3_leb a b = true \/ key3_leb b a = true.
Proof.
  rewrite !key3_leb_le3. unfold le3.
  destruct (Z.lt_total (lo a) (lo b)) as [H|[H|H]]; [left; now left| |right; now left].
  destruct (Z.lt_total (hi a) (hi b)) as [G|[G|G]];
    [left; right; split; [exact H|now left]| |right; right; split; [lia|now left]].
  destruct (String.leb_total (val a) (val b)) as [S|S];
    [left|right]; right; (split; [lia|]); right; (split; [lia|exact S]).
Qed.

Lemma key3_leb_trans a b c :
  key3_leb a b = true -> key3_leb b c = true -> key3_leb a c = true.
Proof. rewrite !key3_leb_le3. apply le3_trans. Qed.

Lemma key3_leb_antisym a b :
  key3_leb a b = true -> key3_leb b a = true -> a = b.
Proof.
  rewrite !key3_leb_le3. destruct a as [[la ha] va], b as [[lb hb] vb].
  unfold le3, lo, hi, val. simpl. intros H1 H2.
  destruct H1 as [H1|[E1 [H1|[F1 S1]]]], H2 as [H2|[E2 [H2|[F2 S2]]]];
    try lia.
  subst. f_equal. now apply String.leb_antisym.
Qed.

Lemma key2_leb_spec a b :
  key2_leb a b = true <-> fst a < fst b \/ (fst a = fst b /\ snd a <= snd b).
Proof.
  unfold key2_leb.
  now rewrite orb_true_iff, andb_true_iff, Z.ltb_lt, Z.eqb_eq, Z.leb_le.
Qed.

Lemma key2_leb_total a b : key2_leb a b = true \/ key2_leb b a = true.
Proof. rewrite !key2_leb_spec. lia. Qed.

Lemma key2_leb_trans a b c :
  key2_leb a b = true -> key2_leb b c = true -> key2_leb a c = true.
Proof. rewrite !key2_leb_spec. lia. Qed.

Lemma key2_leb_antisym a b :
  key2_leb a b = true -> key2_leb b a = true -> a = b.
Proof.
  rewrite !key2_leb_spec. destruct a, b. simpl. intros. f_equal; lia.
Qed.

Lemma key_lohi_leb_spec a b :
  key_lohi_leb a b = true <-> lo a < lo b \/ (lo a = lo b /\ hi a <= hi b).
Proof.
  unfold key_lohi_leb.
  now rewrite orb_true_iff, andb_true_iff, Z.ltb_lt, Z.eqb_eq, Z.leb_le.
Qed.

(** ** The merge loops without their accumulator *)

Lemma merge_valued_loop_eq rest : forall cl ch cv out,
  merge_valued_loop cl ch cv rest out = out ++ mv_from (cl, ch, cv) rest.
Proof.
  induction rest as [|[[l h] v] t IH]; intros; simpl; [reflexivity|].
  unfold extends, lo, hi, val; simpl.
  destruct ((v =? cv)%string && (l <=? ch + 1)); rewrite IH; [reflexivity|].
  now rewrite <- app_assoc.
Qed.

Lemma merge_valued_eq rows :
  _merge_valued_ranges rows = mv_list (sorted key3_leb rows).
Proof.
  unfold _merge_valued_ranges. destruct rows as [|r t]; [reflexivity|].
  destruct (sorted key3_leb (r :: t)) as [|[[cl ch] cv] rest]; [reflexivity|].
  simpl. apply merge_valued_loop_eq.
Qed.

Lemma map_untag_tag l : map untag (map tag l) = l.
Proof.
  induction l as [|[a b] t IH]; simpl; [reflexivity|].
  now rewrite IH.
Qed.

Lemma merge_loop_tag rest : forall cl ch out,
  merge_loop cl ch rest out
  = map untag (merge_valued_loop cl ch EmptyString (map tag rest) (map tag out)).
Proof.
  induction rest as [|[l h] t IH]; intros; simpl.
  - now rewrite map_app, map_untag_tag.
  - destruct (l <=? ch + 1); rewrite IH; [reflexivity|].
    now rewrite map_app.
Qed.

Lemma key3_leb_tag a b : key3_leb (tag a) (tag b) = key2_leb a b.
Proof.
  apply eq_true_iff_eq. rewrite key3_leb_le3, key2_leb_spec.
  unfold le3, tag, lo, hi, val, String.leb. simpl. split.
  - intros [H|[H1 [H2|[H2 _]]]]; lia.
  - intros [H|[H1 H2]]; [now left|]. right. split; [exact H1|].
    destruct (Z.eq_dec (snd a) (snd b));
      [right; split; [assumption|reflexivity]|left; lia].
Qed.

Lemma sorted_tag l : sorted key3_leb (map tag l) = map tag (sorted key2_leb l).
Proof.
  induction l as [|x t IH]; simpl; [reflexivity|]. rewrite IH.
  generalize (sorted key2_leb t). intros s.
  induction s as [|y u IHu]; simpl; [reflexivity|].
  rewrite key3_leb_tag. destruct (key2_leb x y); simpl; [reflexivity|].
  now rewrite IHu.
Qed.

(** The unvalued merge is the valued merge of rows that all carry one
    and the same tag. *)
Lemma merge_ranges_tag ranges :
  _merge_ranges ranges = map untag (_merge_valued_ranges (map tag ranges)).
Proof.
  unfold _merge_ranges, _merge_valued_ranges.
  destruct ranges as [|r t]; [reflexivity|].
  change (map tag (r :: t)) with (tag r :: map tag t) at 1. cbv iota.
  change (tag r :: map tag t) with (map tag (r :: t)).
  rewrite sorted_tag.
  destruct (sorted key2_leb (r :: t)) as [|[cl ch] rest]; [reflexivity|].
  simpl. apply (merge_loop_tag rest cl ch []).
Qed.

(** ** Invariants of the valued loop *)

Lemma le3_lo a b : le3 a b -> lo a <= lo b.
Proof. unfold le3. lia. Qed.

Lemma le3_grow cur h : le3 cur (lo cur, Z.max (hi cur) h, val cur).
Proof.
  unfold le3, lo, hi, val. simpl. right. split; [reflexivity|].
  destruct (Z.max_spec (snd (fst cur)) h) as [[? ->]|[? ->]];
    [left; assumption|right; split; [reflexivity|apply string_leb_refl]].
Qed.

Lemma extends_true cur r :
  extends cur r = true <-> val r = val cur /\ lo r <= hi cur + 1.
Proof.
  unfold extends. now rewrite andb_true_iff, String.eqb_eq, Z.leb_le.
Qed.

Lemma extends_false cur r :
  extends cur r = false <-> val r <> val cur \/ hi cur + 1 < lo r.
Proof.
  unfold extends. rewrite andb_false_iff, String.eqb_neq, Z.leb_gt. reflexivity.
Qed.

Lemma sorted_le3 rows : StronglySorted le3 (sorted key3_leb rows).
Proof.
  apply StronglySorted_mono with (R := le_by key3_leb).
  - intros a b. apply key3_leb_le3.
  - apply sorted_sorted; [apply key3_leb_total|apply key3_leb_trans].
Qed.

Lemma le3_extend_sorted cur r t :
  StronglySorted le3 (cur :: r :: t) -> extends cur r = true ->
  StronglySorted le3 ((lo cur, Z.max (hi cur) (hi r), val cur) :: t).
Proof.
  intros S E. apply extends_true in E. destruct E as [Ev _].
  inversion S as [|? ? S1 F1]; subst.
  inversion S1 as [|? ? S2 F2]; subst.
  inversion F1 as [|? ? C1 F1']; subst.
  constructor; [exact S2|].
  rewrite Forall_forall in *. intros x Hx.
  specialize (F2 x Hx).
  destruct cur as [[lc hc] vc], r as [[lr hr] vr], x as [[lx hx] vx].
  unfold le3, lo, hi, val in *. simpl in *. subst vr.
  destruct C1 as [C1|[E1 [C1|[G1 S1']]]], F2 as [F2|[E2 [F2|[G2 S2']]]];
    try (left; lia); try (right; split; [lia|left; lia]);
    right; (split; [lia|]); right; (split; [lia|assumption]).
Qed.

Lemma mv_from_head rest : forall cur,
  exists h tl, mv_from cur rest = (lo cur, h, val cur) :: tl /\ hi cur <= h.
Proof.
  induction rest as [|r t IH]; intros cur; simpl.
  - exists (hi cur), []. destruct cur as [[? ?] ?]. split; [reflexivity|].
    unfold hi; simpl; lia.
  - destruct (extends cur r).
    + destruct (IH (lo cur, Z.max (hi cur) (hi r), val cur)) as (h & tl & E & L).
      exists h, tl. split; [exact E|]. unfold hi in *; simpl in *; lia.
    + exists (hi cur), (mv_from r t). destruct cur as [[? ?] ?].
      split; [reflexivity|]. unfold hi; simpl; lia.
Qed.

Lemma mv_from_sorted rest : forall cur,
  StronglySorted le3 (cur :: rest) ->
  StronglySorted le3 (mv_from cur rest) /\ Forall (le3 cur) (mv_from cur rest).
Proof.
  induction rest as [|r t IH]; intros cur S; simpl.
  - split; [exact S|]. constructor; [apply le3_refl|constructor].
  - destruct (extends cur r) eqn:E.
    + destruct (IH _ (le3_extend_sorted _ _ _ S E)) as [A B].
      split; [exact A|]. eapply Forall_impl; [|exact B].
      intros x Hx. eapply le3_trans; [apply le3_grow|exact Hx].
    + inversion S as [|? ? S1 F1]; subst.
      inversion F1 as [|? ? C1 _]; subst.
      destruct (IH r S1) as [A B].
      assert (Forall (le3 cur) (mv_from r t)) as F.
      { eapply Forall_impl; [|exact B]. intros x Hx.
        eapply le3_trans; eassumption. }
      split; constructor; auto using le3_refl.
Qed.

Lemma vcovers_grow cur r v c :
  lo cur <= lo r -> extends cur r = true ->
  vcovers v c (lo cur, Z.max (hi cur) (hi r), val cur)
  <-> vcovers v c cur \/ vcovers v c r.
Proof.
  intros L E. apply extends_true in E. destruct E as [Ev El].
  unfold vcovers, lo, hi, val in *. simpl. rewrite Ev.
  split.
  - intros [V [A B]].
    destruct (Z_le_gt_dec c (snd (fst cur))); [left|right]; (split; [exact V|lia]).
  - intros [[V ?]|[V ?]]; (split; [exact V|lia]).
Qed.

(** The loop keeps, value by value, exactly the codepoints it was given. *)
Lemma mv_from_vcovered rest : forall cur v c,
  StronglySorted le3 (cur :: rest) ->
  vcovered (mv_from cur rest) v c <-> vcovered (cur :: rest) v c.
Proof.
  unfold vcovered.
  induction rest as [|r t IH]; intros cur v c S; simpl; [reflexivity|].
  destruct (extends cur r) eqn:E.
  - rewrite (IH _ v c (le3_extend_sorted _ _ _ S E)).
    rewrite !Exists_cons, vcovers_grow; [tauto| |exact E].
    inversion S as [|? ? _ F]; subst. inversion F; subst. now apply le3_lo.
  - inversion S as [|? ? S1 _]; subst.
    rewrite (Exists_cons _ cur (mv_from r t)), (Exists_cons _ cur (r :: t)).
    now rewrite (IH r v c S1).
Qed.

Lemma mv_from_vals (P : string -> Prop) rest : forall cur,
  Forall (fun x => P (val x)) (cur :: rest) ->
  Forall (fun x => P (val x)) (mv_from cur rest).
Proof.
  induction rest as [|r t IH]; intros cur F; simpl; [exact F|].
  inversion F as [|? ? Pc F']; subst. inversion F' as [|? ? Pr Ft]; subst.
  destruct (extends cur r).
  - apply IH. constructor; assumption.
  - constructor; [exact Pc|]. now apply IH.
Qed.

Lemma mv_from_unmerged rest : forall cur, Sorted unmerged (mv_from cur rest).
Proof.
  induction rest as [|r t IH]; intros cur; simpl.
  - repeat constructor.
  - destruct (extends cur r) eqn:E; [apply IH|].
    constructor; [apply IH|].
    destruct (mv_from_head t r) as (h & tl & -> & _).
    constructor. exact E.
Qed.

(** A list whose neighbours never extend one another passes through the
    loop unchanged. *)
Lemma mv_from_fixed rest : forall cur,
  Sorted unmerged (cur :: rest) -> mv_from cur rest = cur :: rest.
Proof.
  induction rest as [|r t IH]; intros cur S; simpl; [reflexivity|].
  inversion S as [|? ? S1 H1]; subst. inversion H1 as [|? ? U]; subst.
  unfold unmerged in U. rewrite U. f_equal. now apply IH.
Qed.

Lemma mv_list_sorted s : StronglySorted le3 s -> StronglySorted le3 (mv_list s).
Proof.
  destruct s as [|cur rest]; simpl; [constructor|].
  intros S. now apply mv_from_sorted.
Qed.

Lemma mv_list_fixed s : mv_list (mv_list s) = mv_list s.
Proof.
  destruct s as [|cur rest]; simpl; [reflexivity|].
  pose proof (mv_from_unmerged rest cur) as U.
  destruct (mv_from_head rest cur) as (h & tl & E & _).
  rewrite E in *. simpl. now apply mv_from_fixed.
Qed.

Lemma merge_valued_idem rows :
  _merge_valued_ranges (_merge_valued_ranges rows) = _merge_valued_ranges rows.
Proof.
  rewrite !merge_valued_eq.
  rewrite (sorted_fixed key3_leb (mv_list (sorted key3_leb rows))).
  - apply mv_list_fixed.
  - apply StronglySorted_mono with (R := le3).
    + intros a b. apply key3_leb_le3.
    + apply mv_list_sorted, sorted_le3.
Qed.

Lemma vcovered_perm l1 l2 v c :
  Permutation l1 l2 -> vcovered l1 v c -> vcovered l2 v c.
Proof.
  unfold vcovered. rewrite !Exists_exists. intros P (r & I & H).
  exists r. split; [eapply Permutation_in; eassumption|exact H].
Qed.

Lemma merge_valued_vcovered rows v c :
  vcovered (_merge_valued_ranges rows) v c <-> vcovered rows v c.
Proof.
  rewrite merge_valued_eq.
  pose proof (sorted_le3 rows) as S.
  pose proof (sorted_perm key3_leb rows) as P.
  assert (vcovered (sorted key3_leb rows) v c <-> vcovered rows v c) as <-.
  { split; apply vcovered_perm; [symmetry|]; exact P. }
  destruct (sorted key3_leb rows) as [|cur rest]; simpl; [reflexivity|].
  now apply mv_from_vcovered.
Qed.

Lemma merge_valued_vals (P : string -> Prop) rows :
  Forall (fun x => P (val x)) rows ->
  Forall (fun x => P (val x)) (_merge_valued_ranges rows).
Proof.
  intros F. rewrite merge_valued_eq.
  assert (Forall (fun x => P (val x)) (sorted key3_leb rows)) as F'.
  { rewrite Forall_forall in *. intros x Hx. apply F.
    now apply (sorted_in key3_leb). }
  destruct (sorted key3_leb rows) as [|cur rest]; simpl; [constructor|].
  now apply mv_from_vals.
Qed.

(** ** Disjointness of the merged rows *)

Lemma StronglySorted_mono_in {A : Type} (R R' : A -> A -> Prop) l :
  (forall a b, In a l -> In b l -> R a b -> R' a b) ->
  StronglySorted R l -> StronglySorted R' l.
Proof.
  intros HR S. induction S as [|x t Hs IH Hx]; constructor.
  - apply IH. intros a b Ia Ib. apply HR; now right.
  - rewrite Forall_forall in *. intros y Hy.
    apply HR; [now left|now right|now apply Hx].
Qed.

Lemma Sorted_strong {A : Type} (R : A -> A -> Prop) (P : A -> Prop) l :
  (forall a b c, P b -> R a b -> R b c -> R a c) ->
  Sorted R l -> Forall P l -> StronglySorted R l.
Proof.
  intros T S. induction S as [|a l S IH H]; intros F; constructor.
  - apply IH. now inversion F.
  - inversion F as [|? ? _ Fl]; subst.
    destruct H as [|b l' Rab]; constructor; [exact Rab|].
    specialize (IH Fl). inversion IH as [|? ? _ Fb]; subst.
    inversion Fl as [|? ? Pb _]; subst.
    eapply Forall_impl; [|exact Fb]. intros c Rbc. eapply T; eassumption.
Qed.

Lemma apart_trans a b c : lo b <= hi b -> apart a b -> apart b c -> apart a c.
Proof. unfold apart. intros N [H1 _] [H2 _]. split; intros; lia. Qed.

Lemma values_apart_tail r t : values_apart (r :: t) -> values_apart t.
Proof. intros H a b Ia Ib. apply H; now right. Qed.

Lemma values_apart_head r t :
  StronglySorted le3 (r :: t) -> Forall (fun x => lo x <= hi x) (r :: t) ->
  values_apart (r :: t) ->
  forall x, In x t -> val x <> val r -> hi r < lo x.
Proof.
  intros S N V x Ix Hv.
  inversion S as [|? ? _ F]; subst. rewrite Forall_forall in F, N.
  pose proof (le3_lo _ _ (F x Ix)) as L.
  pose proof (N x (or_intror Ix)) as Nx.
  destruct (V r x (or_introl eq_refl) (or_intror Ix)) as [H|H];
    [congruence|exact H|lia].
Qed.

Lemma mv_from_apart rest : forall cur,
  StronglySorted le3 (cur :: rest) ->
  Forall (fun r => lo r <= hi r) (cur :: rest) ->
  (forall x, In x rest -> val x <> val cur -> hi cur < lo x) ->
  values_apart rest ->
  Sorted apart (mv_from cur rest)
  /\ Forall (fun r => lo r <= hi r) (mv_from cur rest).
Proof.
  induction rest as [|r t IH]; intros cur S N C V; simpl.
  - split; [repeat constructor|exact N].
  - inversion N as [|? ? Nc N']; subst. inversion N' as [|? ? Nr Nt]; subst.
    assert (StronglySorted le3 (r :: t)) as S' by now inversion S.
    pose proof (values_apart_head r t S' N' V) as Hr.
    destruct (extends cur r) eqn:E.
    + apply IH.
      * now apply le3_extend_sorted.
      * constructor; [unfold lo, hi in *; simpl; lia|exact Nt].
      * intros x Ix Hv. apply extends_true in E. destruct E as [Ev El].
        assert (hi cur < lo x) by (apply C; [now right|exact Hv]).
        assert (hi r < lo x) by (apply Hr; [exact Ix|simpl in Hv; congruence]).
        unfold hi, lo in *; simpl; lia.
      * eapply values_apart_tail; eassumption.
    + destruct (IH r S' N' Hr (values_apart_tail _ _ V)) as [A B].
      split; [|constructor; assumption].
      constructor; [exact A|].
      destruct (mv_from_head t r) as (h & tl & -> & _). constructor.
      apply extends_false in E.
      assert (val r <> val cur -> hi cur < lo r) as C'
          by (intros; apply C; [now left|assumption]).
      unfold apart, lo, hi, val in *. simpl.
      destruct E as [E|E]; split; try lia; auto. intros; congruence.
Qed.

Lemma merge_valued_apart rows :
  Forall (fun r => lo r <= hi r) rows -> values_apart rows ->
  StronglySorted apart (_merge_valued_ranges rows)
  /\ Forall (fun r => lo r <= hi r) (_merge_valued_ranges rows).
Proof.
  intros N V. rewrite merge_valued_eq.
  pose proof (sorted_le3 rows) as S.
  assert (Forall (fun r => lo r <= hi r) (sorted key3_leb rows)) as N'.
  { rewrite Forall_forall in *. intros x Hx. apply N.
    now apply (sorted_in key3_leb). }
  assert (values_apart (sorted key3_leb rows)) as V'.
  { intros a b Ia Ib. apply V; now apply (sorted_in key3_leb). }
  destruct (sorted key3_leb rows) as [|cur rest]; simpl.
  - split; constructor.
  - destruct (mv_from_apart rest cur S N' (values_apart_head _ _ S N' V')
                (values_apart_tail _ _ V')) as [A B].
    split; [|exact B].
    apply Sorted_strong with (P := fun r => lo r <= hi r); auto.
    intros a b c. apply apart_trans.
Qed.

Lemma one_value_apart v0 rows :
  Forall (fun x => val x = v0) rows -> values_apart rows.
Proof.
  rewrite Forall_forall. intros F a b Ia Ib H.
  rewrite (F a Ia), (F b Ib) in H. congruence.
Qed.

Lemma tag_vals l : Forall (fun x => val x = EmptyString) (map tag l).
Proof. apply Forall_map. apply Forall_forall. reflexivity. Qed.

Lemma map_tag_untag l :
  Forall (fun x => val x = EmptyString) l -> map tag (map untag l) = l.
Proof.
  induction 1 as [|[[a b] v] t Hv _ IH]; simpl; [reflexivity|].
  unfold val in Hv. simpl in Hv. subst. now rewrite IH.
Qed.

Lemma covered_tag l c : covered l c <-> vcovered (map tag l) EmptyString c.
Proof.
  unfold covered, vcovered.
  induction l as [|r t IH]; simpl; [now rewrite !Exists_nil|].
  rewrite !Exists_cons, IH. unfold covers, vcovers, tag, lo, hi, val. simpl.
  tauto.
Qed.

Lemma covered_untag l c :
  Forall (fun x => val x = EmptyString) l ->
  covered (map untag l) c <-> vcovered l EmptyString c.
Proof.
  intros F. rewrite covered_tag, map_tag_untag by exact F. reflexivity.
Qed.

Lemma merge_ranges_sorted_eq ranges :
  _merge_ranges ranges = match sorted key2_leb ranges with
                         | [] => []
                         | (cur_lo, cur_hi) :: rest =>
                             merge_loop cur_lo cur_hi rest []
                         end.
Proof. now destruct ranges. Qed.

(** ** The validator's walk *)

Lemma disjoint_loop_ok label l : forall p,
  Sorted apart l -> (forall b t, l = b :: t -> p < lo b) ->
  disjoint_loop label p l = inr tt.
Proof.
  induction l as [|[[l0 h0] v0] t IH]; intros p S H; simpl; [reflexivity|].
  pose proof (H _ _ eq_refl) as Hp. unfold lo in Hp. simpl in Hp.
  destruct (l0 <=? p) eqn:E; [apply Z.leb_le in E; lia|].
  apply IH; [now inversion S|].
  intros b t' ->. inversion S as [|? ? _ Hd]; subst.
  inversion Hd as [|? ? Ap]; subst. destruct Ap as [Ap _]. exact Ap.
Qed.

Lemma last_cons {A : Type} (l : list A) : forall x d, last (x :: l) d = last l x.
Proof.
  induction l as [|a l IH]; intros x d; [reflexivity|].
  change (last (x :: a :: l) d) with (last (a :: l) d).
  now rewrite (IH a d), (IH a x).
Qed.

Lemma overlap_from_adjacent l1 : forall p a b l2,
  lo b <= hi a -> overlap_from p (l1 ++ a :: b :: l2).
Proof.
  induction l1 as [|x l1 IH]; intros p a b l2 H; simpl.
  - right. now left.
  - right. now apply IH.
Qed.

(** The walk stops at the first entry that starts at or before the end
    of the entry before it, and reports where that entry starts. *)
Lemma disjoint_loop_first label l : forall p,
  overlap_from p l ->
  exists l1 c l2,
    l = l1 ++ c :: l2 /\ ~ overlap_from p l1
    /\ lo c <= last (map hi l1) p
    /\ disjoint_loop label p l = inl (OverlapError label (lo c)).
Proof.
  induction l as [|[[l0 h0] v0] t IH]; intros p O; simpl in O; [contradiction|].
  simpl. destruct (l0 <=? p) eqn:E.
  - exists [], (l0, h0, v0), t. apply Z.leb_le in E.
    split; [reflexivity|]. split; [intros []|]. now split.
  - apply Z.leb_gt in E.
    destruct O as [O|O]; [unfold lo in O; simpl in O; lia|].
    destruct (IH _ O) as (l1 & c & l2 & -> & Nl & L & D).
    exists ((l0, h0, v0) :: l1), c, l2.
    split; [reflexivity|]. split; [|split; [|exact D]].
    + simpl. intros [C|C]; [unfold lo in C; simpl in C; lia|now apply Nl].
    + change (map hi ((l0, h0, v0) :: l1)) with (h0 :: map hi l1).
      now rewrite last_cons.
Qed.

(** ** Runs of one value *)

Lemma hull_single r : hull [r] = r.
Proof. now destruct r as [[? ?] ?]. Qed.

Lemma hull_snoc g r :
  g <> [] ->
  hull (g ++ [r]) = (lo (hull g), Z.max (hi (hull g)) (hi r), val (hull g)).
Proof.
  destruct g as [|x t]; [congruence|]. intros _. simpl.
  now rewrite fold_left_app.
Qed.

Lemma mv_from_groups rest : forall g,
  one_valued g ->
  exists gs, List.concat gs = g ++ rest /\ Forall one_valued gs
             /\ mv_from (hull g) rest = map hull gs.
Proof.
  induction rest as [|r t IH]; intros g G; simpl.
  - exists [g]. simpl. rewrite app_nil_r.
    split; [reflexivity|]. split; [|reflexivity]. constructor; [exact G|constructor].
  - destruct (extends (hull g) r) eqn:E.
    + assert (one_valued (g ++ [r])) as G'.
      { destruct G as [Gn Gf]. split; [destruct g; simpl; congruence|].
        rewrite hull_snoc by exact Gn. apply extends_true in E.
        apply Forall_app. split; [exact Gf|]. constructor; [tauto|constructor]. }
      destruct (IH _ G') as (gs & C & F & M). exists gs.
      rewrite hull_snoc in M by apply G.
      split; [now rewrite C, <- app_assoc|]. split; assumption.
    + destruct (IH [r]) as (gs & C & F & M).
      { split; [discriminate|]. constructor; [now rewrite hull_single|constructor]. }
      rewrite hull_single in M. exists (g :: gs). simpl. rewrite C, M.
      split; [reflexivity|]. split; [constructor; assumption|reflexivity].
Qed.

(** ** Hex digits: formatting and reading back *)

Lemma append_assoc (a b c : string) : ((a ++ b) ++ c = a ++ (b ++ c))%string.
Proof. induction a as [|x a IH]; simpl; congruence. Qed.

Lemma append_nil_r (a : string) : (a ++ "" = a)%string.
Proof. induction a as [|x a IH]; simpl; congruence. Qed.

Lemma length_append (a b : string) :
  String.length (a ++ b) = (String.length a + String.length b)%nat.
Proof. induction a as [|x a IH]; simpl; congruence. Qed.

Lemma string_forall_app p a b :
  string_forall p (a ++ b) = string_forall p a && string_forall p b.
Proof.
  induction a as [|x a IH]; simpl; [reflexivity|].
  now rewrite IH, andb_assoc.
Qed.

Lemma hex_value_app a b : forall acc,
  hex_value (a ++ b) acc = hex_value b (hex_value a acc).
Proof.
  induction a as [|x a IH]; intros acc; simpl; [reflexivity|].
  destruct (hex_val x); apply IH.
Qed.

Lemma upper_hex_char c :
  is_upper_hex c = true ->
  isspace c = false /\ int_space c = false
  /\ (c =? "_")%char = false /\ (c =? "-")%char = false
  /\ (c =? "+")%char = false /\ (c =? "x")%char = false
  /\ (c =? "X")%char = false /\ (c =? ".")%char = false
  /\ (exists d, hex_val c = Some d).
Proof.
  destruct c as [b0 b1 b2 b3 b4 b5 b6 b7].
  destruct b0, b1, b2, b3, b4, b5, b6, b7; vm_compute; intros H;
    try discriminate H; repeat split; eexists; reflexivity.
Qed.

Lemma hex_digit_upper_ok d :
  0 <= d < 16 ->
  is_upper_hex (hex_digit_upper d) = true /\ hex_val (hex_digit_upper d) = Some d.
Proof.
  intros H.
  assert (d = 0 \/ d = 1 \/ d = 2 \/ d = 3 \/ d = 4 \/ d = 5 \/ d = 6 \/ d = 7
          \/ d = 8 \/ d = 9 \/ d = 10 \/ d = 11 \/ d = 12 \/ d = 13 \/ d = 14
          \/ d = 15) as C by lia.
  repeat (destruct C as [->|C]; [now vm_compute|]). subst. now vm_compute.
Qed.

Lemma lstrip_by_id p s :
  match s with String c _ => p c = false | EmptyString => True end ->
  lstrip_by p s = s.
Proof. destruct s as [|c t]; simpl; [reflexivity|]. now intros ->. Qed.

Lemma rstrip_by_id p s :
  string_forall (fun c => negb (p c)) s = true -> rstrip_by p s = s.
Proof.
  induction s as [|c t IH]; simpl; [reflexivity|].
  rewrite andb_true_iff, negb_true_iff. intros [Hc Ht].
  rewrite (IH Ht), Hc. now destruct t.
Qed.

Lemma string_forall_impl (p q : ascii -> bool) s :
  (forall c, p c = true -> q c = true) ->
  string_forall p s = true -> string_forall q s = true.
Proof.
  intros H. induction s as [|c t IH]; simpl; [reflexivity|].
  rewrite !andb_true_iff. intros [Hc Ht]. auto.
Qed.

Lemma strip_by_upper_hex p s :
  (forall c, is_upper_hex c = true -> p c = false) ->
  string_forall is_upper_hex s = true ->
  rstrip_by p (lstrip_by p s) = s.
Proof.
  intros Hp F. rewrite lstrip_by_id.
  - apply rstrip_by_id. eapply string_forall_impl; [|exact F].
    intros c Hc. now rewrite (Hp c Hc).
  - destruct s as [|c t]; [exact I|]. simpl in F.
    apply andb_true_iff in F. now apply Hp.
Qed.

Lemma int_digits_upper_hex ds : forall a us,
  string_forall is_upper_hex ds = true -> ds <> EmptyString \/ us = false ->
  int_digits a us ds = Some (hex_value ds a).
Proof.
  induction ds as [|c t IH]; intros a us F N; simpl.
  - destruct N as [N| ->]; [congruence|reflexivity].
  - simpl in F. apply andb_true_iff in F. destruct F as [Hc Ht].
    destruct (upper_hex_char c Hc) as (_ & _ & -> & _ & _ & _ & _ & _ & d & ->).
    apply IH; [exact Ht|now right].
Qed.

Lemma int_unsigned_upper_hex ds :
  ds <> EmptyString -> string_forall is_upper_hex ds = true ->
  int_unsigned ds = Some (hex_value ds 0).
Proof.
  intros N F.
  assert (int_unsigned ds = int_digits 0 true ds) as ->.
  { unfold int_unsigned. destruct ds as [|c [|x u]]; try reflexivity.
    simpl in F. rewrite !andb_true_iff in F. destruct F as (_ & Hx & _).
    destruct (upper_hex_char x Hx) as (_ & _ & _ & _ & _ & -> & -> & _).
    now rewrite andb_false_r. }
  apply int_digits_upper_hex; [exact F|now left].
Qed.

(** [int] reads a run of upper-case hex digits as the number it denotes. *)
Lemma int16_upper_hex ds :
  ds <> EmptyString -> string_forall is_upper_hex ds = true ->
  int16 ds = inr (hex_value ds 0).
Proof.
  intros N F. unfold int16.
  rewrite (strip_by_upper_hex int_space ds); [|intros c Hc; apply (upper_hex_char c Hc)|exact F].
  pose proof (int_unsigned_upper_hex ds N F) as U.
  destruct ds as [|c t]; [congruence|].
  pose proof F as F'. simpl in F'. apply andb_true_iff in F'. destruct F' as [Hc Ht].
  destruct (upper_hex_char c Hc) as (_ & _ & _ & -> & -> & _).
  now rewrite U.
Qed.

Lemma strip_by_minus p ds :
  p "-"%char = false ->
  (forall c, is_upper_hex c = true -> p c = false) ->
  string_forall is_upper_hex ds = true ->
  rstrip_by p (lstrip_by p (String "-" ds)) = String "-" ds.
Proof.
  intros Hm Hp F. cbn [lstrip_by]. rewrite Hm.
  apply rstrip_by_id. cbn [string_forall]. rewrite Hm. simpl.
  eapply string_forall_impl; [|exact F].
  intros c Hc. now rewrite (Hp c Hc).
Qed.

(** ... and with a leading minus sign as its opposite. *)
Lemma int16_minus_upper_hex ds :
  ds <> EmptyString -> string_forall is_upper_hex ds = true ->
  int16 (String "-" ds) = inr (- hex_value ds 0).
Proof.
  intros N F. unfold int16.
  rewrite (strip_by_minus int_space ds); [|reflexivity|intros c Hc; apply (upper_hex_char c Hc)|exact F].
  change (("-" =? "-")%char) with true. cbv iota.
  now rewrite (int_unsigned_upper_hex ds N F).
Qed.

Lemma split_dotdot_cons c d u :
  split_dotdot (String c (String d u))
  = if ((c =? ".") && (d =? "."))%char then Some (EmptyString, u)
    else match split_dotdot (String d u) with
         | Some (a, b) => Some (String c a, b)
         | None => None
         end.
Proof. reflexivity. Qed.

Lemma split_dotdot_upper_hex ds :
  string_forall is_upper_hex ds = true -> split_dotdot ds = None.
Proof.
  induction ds as [|c t IH]; simpl; [reflexivity|].
  rewrite andb_true_iff. intros [Hc Ht].
  destruct (upper_hex_char c Hc) as (_ & _ & _ & _ & _ & _ & _ & -> & _).
  destruct t as [|d u]; [reflexivity|]. now rewrite andb_false_l, (IH Ht).
Qed.

Lemma parse_codepoint_range_upper_hex ds :
  ds <> EmptyString -> string_forall is_upper_hex ds = true ->
  _parse_codepoint_range ds = inr (hex_value ds 0, hex_value ds 0).
Proof.
  intros N F. unfold _parse_codepoint_range, strip.
  rewrite (strip_by_upper_hex isspace ds); [|intros c Hc; apply (upper_hex_char c Hc)|exact F].
  rewrite (split_dotdot_upper_hex ds F), (int16_upper_hex ds N F). reflexivity.
Qed.

Lemma parse_codepoint_range_minus_upper_hex ds :
  ds <> EmptyString -> string_forall is_upper_hex ds = true ->
  _parse_codepoint_range (String "-" ds)
  = inr (- hex_value ds 0, - hex_value ds 0).
Proof.
  intros N F. unfold _parse_codepoint_range, strip.
  rewrite (strip_by_minus isspace ds); [|reflexivity|intros c Hc; apply (upper_hex_char c Hc)|exact F].
  assert (split_dotdot (String "-" ds) = None) as ->.
  { destruct ds as [|d u]; [congruence|]. rewrite split_dotdot_cons.
    change (("-" =? ".")%char) with false.
    now rewrite andb_false_l, (split_dotdot_upper_hex _ F). }
  now rewrite (int16_minus_upper_hex ds N F).
Qed.

Lemma hex_upper_aux_spec f : forall x s,
  1 <= x < 2 ^ Z.of_nat f ->
  exists ds,
    hex_upper_aux f x s = (ds ++ s)%string
    /\ string_forall is_upper_hex ds = true
    /\ hex_value ds 0 = x
    /\ (1 <= String.length ds)%nat
    /\ 16 ^ (Z.of_nat (String.length ds) - 1) <= x
       < 16 ^ Z.of_nat (String.length ds).
Proof.
  induction f as [|f IH]; intros x s Hx; [simpl in Hx; lia|].
  rewrite Nat2Z.inj_succ, Z.pow_succ_r in Hx by lia.
  pose proof (Z.div_mod x 16 ltac:(lia)) as DM.
  pose proof (Z.mod_pos_bound x 16 ltac:(lia)) as MB.
  destruct (hex_digit_upper_ok (x mod 16) MB) as [U V].
  simpl hex_upper_aux. destruct (x / 16 =? 0) eqn:E.
  - apply Z.eqb_eq in E.
    exists (String (hex_digit_upper (x mod 16)) EmptyString). simpl.
    rewrite U, V. repeat split; try reflexivity; try lia.
  - apply Z.eqb_neq in E.
    assert (0 <= x / 16) as Q by (apply Z.div_pos; lia).
    assert (0 < 2 ^ Z.of_nat f) as P2 by (apply Z.pow_pos_nonneg; lia).
    destruct (IH (x / 16) (String (hex_digit_upper (x mod 16)) s))
      as (ds & E1 & F & Hv & L & B); [lia|].
    exists (ds ++ String (hex_digit_upper (x mod 16)) EmptyString)%string.
    split; [now rewrite E1, append_assoc|].
    split; [rewrite string_forall_app, F; simpl; now rewrite U|].
    split; [rewrite hex_value_app, Hv; cbn [hex_value]; rewrite V; lia|].
    rewrite length_append. simpl String.length. split; [lia|].
    remember (Z.of_nat (String.length ds)) as n eqn:En.
    assert (16 ^ n = 16 * 16 ^ (n - 1)) as Hpow.
    { replace n with (Z.succ (n - 1)) at 1 by lia. apply Z.pow_succ_r. lia. }
    replace (Z.of_nat (String.length ds + 1)) with (Z.succ n) by lia.
    replace (Z.succ n - 1) with n by lia.
    rewrite Z.pow_succ_r by lia. rewrite Hpow in *. lia.
Qed.

Lemma hex_upper_spec x :
  0 <= x ->
  string_forall is_upper_hex (hex_upper x) = true
  /\ hex_value (hex_upper x) 0 = x
  /\ (1 <= String.length (hex_upper x))%nat
  /\ (x < 16 ^ Z.of_nat (String.length (hex_upper x)))
  /\ (1 <= x -> 16 ^ (Z.of_nat (String.length (hex_upper x)) - 1) <= x).
Proof.
  intros H. destruct (Z.eq_dec x 0) as [->|N].
  - vm_compute. repeat split; try reflexivity; try discriminate.
    intros C; now apply C.
  - unfold hex_upper.
    destruct (hex_upper_aux_spec (S (Z.to_nat (Z.log2 x))) x EmptyString)
      as (ds & E & F & V & L & B).
    + rewrite Nat2Z.inj_succ, Z2Nat.id by apply Z.log2_nonneg.
      pose proof (Z.log2_spec x ltac:(lia)). lia.
    + rewrite E, append_nil_r. repeat split; auto; lia.
Qed.

Lemma zeros_upper_hex k : string_forall is_upper_hex (zeros k) = true.
Proof. induction k; simpl; [reflexivity|exact IHk]. Qed.

Lemma hex_value_zeros k s : hex_value (zeros k ++ s) 0 = hex_value s 0.
Proof. induction k; simpl; [reflexivity|exact IHk]. Qed.

Lemma length_zeros k : String.length (zeros k) = k.
Proof. induction k; simpl; congruence. Qed.

Lemma zfill_spec w s :
  s <> EmptyString -> string_forall is_upper_hex s = true ->
  zfill w s <> EmptyString
  /\ string_forall is_upper_hex (zfill w s) = true
  /\ hex_value (zfill w s) 0 = hex_value s 0
  /\ String.length (zfill w s) = Nat.max w (String.length s).
Proof.
  intros N F. unfold zfill. repeat split.
  - destruct s; [congruence|].
    destruct (zeros (w - String.length (String a s))); simpl; congruence.
  - now rewrite string_forall_app, zeros_upper_hex, F.
  - apply hex_value_zeros.
  - rewrite length_append, length_zeros. lia.
Qed.

Lemma hex_upper_nonempty x : 0 <= x -> hex_upper x <> EmptyString.
Proof.
  intros H. destruct (hex_upper_spec x H) as (_ & _ & L & _).
  destruct (hex_upper x); [simpl in L; lia|congruence].
Qed.

(** The shape of the digits of a value that is not negative. *)
Lemma fmt_digits_spec x :
  0 <= x ->
  fmt_digits x <> EmptyString
  /\ string_forall is_upper_hex (fmt_digits x) = true
  /\ hex_value (fmt_digits x) 0 = x
  /\ (x <= 0xFFFF -> String.length (fmt_digits x) = 4%nat)
  /\ (0xFFFF < x ->
      16 ^ (Z.of_nat (String.length (fmt_digits x)) - 1) <= x
      < 16 ^ Z.of_nat (String.length (fmt_digits x))).
Proof.
  intros H. destruct (hex_upper_spec x H) as (F & V & L & B1 & B2).
  pose proof (hex_upper_nonempty x H) as N.
  unfold fmt_digits, format_04X, format_X.
  assert ((x <? 0) = false) as -> by (apply Z.ltb_ge; lia).
  destruct (x <=? 0xFFFF) eqn:E.
  - apply Z.leb_le in E.
    destruct (zfill_spec 4 _ N F) as (N4 & F4 & V4 & L4).
    assert (String.length (hex_upper x) <= 4)%nat as Le.
    { destruct (Z.eq_dec x 0) as [->|Nz]; [vm_compute; lia|].
      destruct (le_lt_dec (String.length (hex_upper x)) 4) as [?|G]; [assumption|].
      exfalso.
      assert (16 ^ 4 <= 16 ^ (Z.of_nat (String.length (hex_upper x)) - 1))
        by (apply Z.pow_le_mono_r; lia).
      specialize (B2 ltac:(lia)). change (16 ^ 4) with 65536 in *. lia. }
    split; [exact N4|]. split; [exact F4|]. split; [congruence|].
    split; intros; lia.
  - apply Z.leb_gt in E.
    split; [exact N|]. split; [exact F|]. split; [exact V|].
    split; intros; [lia|]. split; [apply B2; lia|exact B1].
Qed.

(** Reading the digits back gives the value, whatever its sign. *)
Lemma fmt_digits_read_back x :
  int16 (fmt_digits x) = inr x
  /\ _parse_codepoint_range (fmt_digits x) = inr (x, x).
Proof.
  destruct (Z_lt_le_dec x 0) as [H|H].
  - assert (0 <= - x) as H' by lia.
    destruct (hex_upper_spec _ H') as (F & V & _).
    destruct (zfill_spec 3 _ (hex_upper_nonempty _ H') F) as (N3 & F3 & V3 & _).
    unfold fmt_digits, format_04X.
    assert ((x <=? 0xFFFF) = true) as -> by (apply Z.leb_le; lia).
    assert ((x <? 0) = true) as -> by (apply Z.ltb_lt; lia).
    rewrite (int16_minus_upper_hex _ N3 F3),
      (parse_codepoint_range_minus_upper_hex _ N3 F3), V3, V.
    now replace (- - x) with x by lia.
  - destruct (fmt_digits_spec x H) as (N & F & V & _).
    now rewrite (int16_upper_hex _ N F),
      (parse_codepoint_range_upper_hex _ N F), V.
Qed.

(** ** The line parser *)

Lemma data_re_match_nonblank s g :
  _DATA_RE_match s = Some g ->
  (s =? "")%string = false /\ startswith_hash s = false.
Proof.
  destruct s as [|c t]; [discriminate|].
  unfold _DATA_RE_match. cbn [take_while].
  destruct (is_cp_char c) eqn:E; [|discriminate].
  intros _. split; [reflexivity|]. simpl.
  destruct (Ascii.eqb_spec c "#") as [->|]; [discriminate E|reflexivity].
Qed.

Lemma int16_error s e :
  int16 s = inl e ->
  e = ValueError ("invalid literal for int() with base 16: " ++ repr s)%string.
Proof.
  unfold int16.
  repeat match goal with
         | |- context [match ?x with _ => _ end] => destruct x
         end; intros H; inversion H; reflexivity.
Qed.

Lemma parse_codepoint_range_error f e :
  _parse_codepoint_range f = inl e ->
  exists s,
    e = ValueError ("invalid literal for int() with base 16: " ++ repr s)%string.
Proof.
  unfold _parse_codepoint_range, bind.
  destruct (split_dotdot (strip f)) as [[a b]|].
  - destruct (int16 a) eqn:A; [intros H; inversion H; subst; eauto using int16_error|].
    destruct (int16 b) eqn:B; [intros H; inversion H; subst; eauto using int16_error|].
    discriminate.
  - destruct (int16 (strip f)) eqn:A; [intros H; inversion H; subst; eauto using int16_error|].
    discriminate.
Qed.

(** What the loop body does with a line that has the record shape and
    whose property is wanted. *)
Lemma parse_line_matched path wanted rows line cp_field prop :
  _DATA_RE_match (strip line) = Some (cp_field, prop) ->
  not_wanted wanted prop = false ->
  parse_line path wanted rows line
  = match _parse_codepoint_range cp_field with
    | inl e => inl e
    | inr (lo, hi) =>
        if (lo <? 0) || (hi >? 0x10FFFF) || (lo >? hi)
        then inl (RangeError cp_field path)
        else inr (rows ++ [(lo, hi, prop)])
    end.
Proof.
  intros M W. unfold parse_line.
  destruct (data_re_match_nonblank _ _ M) as [-> ->]. simpl orb. cbv iota.
  rewrite M, W. unfold bind.
  destruct (_parse_codepoint_range cp_field) as [e|[lo hi]]; reflexivity.
Qed.

Lemma parse_line_unwanted path wanted rows line cp_field prop :
  _DATA_RE_match (strip line) = Some (cp_field, prop) ->
  not_wanted wanted prop = true ->
  parse_line path wanted rows line = inr rows.
Proof.
  intros M W. unfold parse_line.
  destruct (data_re_match_nonblank _ _ M) as [-> ->]. simpl orb. cbv iota.
  now rewrite M, W.
Qed.

Lemma startswith_hash_strip line :
  startswith_hash line = true -> startswith_hash (strip line) = true.
Proof.
  destruct line as [|c t]; [discriminate|]. simpl. intros H.
  apply Ascii.eqb_eq in H. subst c. unfold strip. simpl.
  now destruct (rstrip_by isspace t).
Qed.

Lemma parse_line_skip path wanted line :
  strip line = EmptyString \/ startswith_hash (strip line) = true
  \/ _DATA_RE_match (strip line) = None ->
  skipped path wanted line.
Proof.
  intros H rows. unfold parse_line.
  destruct H as [-> | [-> | ->]]; [reflexivity|now rewrite orb_true_r|].
  now destruct ((strip line =? "")%string || startswith_hash (strip line)).
Qed.

Lemma parse_lines_skip path wanted line :
  skipped path wanted line ->
  forall l1 l2 rows,
    parse_lines path wanted rows (l1 ++ line :: l2)
    = parse_lines path wanted rows (l1 ++ l2).
Proof.
  intros H l1 l2. induction l1 as [|a l1 IH]; intros rows; simpl.
  - now rewrite H.
  - destruct (parse_line path wanted rows a); simpl; [reflexivity|apply IH].
Qed.

Lemma parse_lines_app path wanted l1 : forall l2 rows,
  parse_lines path wanted rows (l1 ++ l2)
  = bind (parse_lines path wanted rows l1)
         (fun rows' => parse_lines path wanted rows' l2).
Proof.
  induction l1 as [|a l1 IH]; intros l2 rows; simpl; [reflexivity|].
  destruct (parse_line path wanted rows a); simpl; [reflexivity|apply IH].
Qed.

(** ** The emitter and the run *)

Lemma emit_ranges8_loop_spec rows : forall lines,
  match first_unmapped rows with
  | Some r => emit_ranges8_loop rows lines = inl (UnmappedSymbolError (val r))
  | None => exists lines', emit_ranges8_loop rows lines = inr lines'
  end.
Proof.
  unfold first_unmapped.
  induction rows as [|[[l h] p] t IH]; intros lines;
    cbn [find emit_ranges8_loop val snd]; [eauto|].
  destruct (dict_get gcb_map p); [apply IH|reflexivity].
Qed.

Lemma emit_inc_spec out_path gcb ep emoji_pres eaw_wide :
  match first_unmapped gcb with
  | Some r =>
      _emit_inc out_path gcb ep emoji_pres eaw_wide
      = ([MkdirParent out_path], inl (UnmappedSymbolError (val r)))
  | None =>
      exists t1,
        emit_ranges8 "kGcbRanges" gcb = inr t1
        /\ _emit_inc out_path gcb ep emoji_pres eaw_wide
           = ([MkdirParent out_path;
               WriteText out_path
                 (hdr ++ nl
                  ++ join (nl ++ nl)
                       [t1; emit_ranges "kExtendedPictographicRanges" ep;
                        emit_ranges "kEmojiPresentationRanges" emoji_pres;
                        emit_ranges "kEawWideRanges" eaw_wide]
                  ++ nl)%string],
              inr tt)
  end.
Proof.
  unfold _emit_inc, emit_ranges8.
  pose proof (emit_ranges8_loop_spec gcb
                ["static const zr_unicode_range8_t kGcbRanges[] = {"%string]) as H.
  destruct (first_unmapped gcb) as [r|].
  - change ("static const zr_unicode_range8_t " ++ "kGcbRanges" ++ "[] = {")%string
      with "static const zr_unicode_range8_t kGcbRanges[] = {"%string.
    rewrite H. reflexivity.
  - destruct H as [lines' H].
    change ("static const zr_unicode_range8_t " ++ "kGcbRanges" ++ "[] = {")%string
      with "static const zr_unicode_range8_t kGcbRanges[] = {"%string.
    rewrite H. eexists. split; reflexivity.
Qed.

Lemma emit_inc_no_partial_write out_path gcb ep emoji_pres eaw_wide tr e :
  _emit_inc out_path gcb ep emoji_pres eaw_wide = (tr, inl e) -> no_write tr.
Proof.
  pose proof (emit_inc_spec out_path gcb ep emoji_pres eaw_wide) as H.
  destruct (first_unmapped gcb) as [r|].
  - rewrite H. intros E. inversion E; subst. intros p t [C|[]]. discriminate C.
  - destruct H as (t1 & _ & ->). discriminate.
Qed.

Lemma mv_from_los (P : Z -> Prop) rest : forall cur,
  Forall (fun x => P (lo x)) (cur :: rest) ->
  Forall (fun x => P (lo x)) (mv_from cur rest).
Proof.
  induction rest as [|r t IH]; intros cur F; simpl; [exact F|].
  inversion F as [|? ? Pc F']; subst. inversion F' as [|? ? Pr Ft]; subst.
  destruct (extends cur r).
  - apply IH. constructor; assumption.
  - constructor; [exact Pc|]. now apply IH.
Qed.

Lemma merge_valued_los (P : Z -> Prop) rows :
  Forall (fun x => P (lo x)) rows ->
  Forall (fun x => P (lo x)) (_merge_valued_ranges rows).
Proof.
  intros F. rewrite merge_valued_eq.
  assert (Forall (fun x => P (lo x)) (sorted key3_leb rows)) as F'.
  { rewrite Forall_forall in *. intros x Hx. apply F.
    now apply (sorted_in key3_leb). }
  destruct (sorted key3_leb rows) as [|cur rest]; simpl; [constructor|].
  now apply mv_from_los.
Qed.

Lemma merge_valued_le3 rows : StronglySorted le3 (_merge_valued_ranges rows).
Proof. rewrite merge_valued_eq. apply mv_list_sorted, sorted_le3. Qed.

Lemma le3_key_lohi a b : le3 a b -> le_by key_lohi_leb a b.
Proof.
  unfold le_by. rewrite key_lohi_leb_spec. unfold le3. lia.
Qed.

(** * The claims *)

(** ** Range merger *)

(** C1: for every list of input ranges, each with [lo <= hi], the
    unvalued merge returns ranges that are strictly sorted by [lo],
    pairwise non-overlapping (each ends before every later one starts),
    themselves with [lo <= hi], and that cover exactly the codepoints
    the input ranges cover. *)
Theorem merge_ranges_disjoint_cover (ranges : list range) :
  Forall (fun r => fst r <= snd r) ranges ->
  StronglySorted (fun a b => fst a < fst b) (_merge_ranges ranges)
  /\ StronglySorted (fun a b => snd a < fst b) (_merge_ranges ranges)
  /\ Forall (fun r => fst r <= snd r) (_merge_ranges ranges)
  /\ forall c, covered (_merge_ranges ranges) c <-> covered ranges c.
Proof.
  intros N. rewrite merge_ranges_tag.
  assert (Forall (fun r => lo r <= hi r) (map tag ranges)) as N'
      by (apply Forall_map; exact N).
  pose proof (one_value_apart _ _ (tag_vals ranges)) as V.
  destruct (merge_valued_apart _ N' V) as [S F].
  pose proof F as F'. rewrite Forall_forall in F'.
  repeat split.
  - apply StronglySorted_map. eapply StronglySorted_mono_in; [|exact S].
    intros a b Ia _ [H _]. specialize (F' a Ia).
    unfold lo, hi, untag in *. lia.
  - apply StronglySorted_map. eapply StronglySorted_mono; [|exact S].
    intros a b [H _]. exact H.
  - apply Forall_map. exact F.
  - rewrite covered_untag, merge_valued_vcovered, <- covered_tag; [tauto|].
    apply merge_valued_vals with (P := fun v => v = EmptyString), tag_vals.
  - rewrite covered_untag, merge_valued_vcovered, <- covered_tag; [tauto|].
    apply merge_valued_vals with (P := fun v => v = EmptyString), tag_vals.
Qed.

Lemma merge_ranges_disjoint_cover_witness :
  _merge_ranges [(0x300, 0x36F); (0x370, 0x374)] = [(0x300, 0x374)]
  /\ (StronglySorted (fun a b => fst a < fst b)
        (_merge_ranges [(0x300, 0x36F); (0x370, 0x374)])
      /\ StronglySorted (fun a b => snd a < fst b)
           (_merge_ranges [(0x300, 0x36F); (0x370, 0x374)])
      /\ Forall (fun r => fst r <= snd r)
           (_merge_ranges [(0x300, 0x36F); (0x370, 0x374)])
      /\ forall c, covered (_merge_ranges [(0x300, 0x36F); (0x370, 0x374)]) c
                   <-> covered [(0x300, 0x36F); (0x370, 0x374)] c).
Proof.
  split; [reflexivity|].
  apply (merge_ranges_disjoint_cover [(0x300, 0x36F); (0x370, 0x374)]).
  constructor; [simpl; lia|]. constructor; [simpl; lia|]. constructor.
Defined.

(** C2: the valued merge never coalesces rows of differing values.  Its
    output is the sorted input cut into consecutive runs, each run of
    one value, and each output row is the hull of its run; in the loop a
    row whose value differs from the open interval's closes it, however
    the codepoints lie; and the rows of the scenario merge as stated. *)
Theorem merge_valued_never_mixes_values :
  (forall rows,
     exists gs,
       List.concat gs = sorted key3_leb rows
       /\ Forall one_valued gs
       /\ _merge_valued_ranges rows = map hull gs)
  /\ (forall cur_lo cur_hi cur_v lo hi v rest out,
        v <> cur_v ->
        merge_valued_loop cur_lo cur_hi cur_v ((lo, hi, v) :: rest) out
        = merge_valued_loop lo hi v rest (out ++ [(cur_lo, cur_hi, cur_v)]))
  /\ _merge_valued_ranges
       [(0x41, 0x41, "X"%string); (0x42, 0x45, "X"%string);
        (0x50, 0x50, "Y"%string)]
     = [(0x41, 0x45, "X"%string); (0x50, 0x50, "Y"%string)].
Proof.
  split; [|split; [|reflexivity]].
  - intros rows. rewrite merge_valued_eq.
    destruct (sorted key3_leb rows) as [|cur rest].
    + exists []. repeat split. constructor.
    + destruct (mv_from_groups rest [cur]) as (gs & C & F & M).
      { split; [discriminate|]. constructor; [now rewrite hull_single|constructor]. }
      rewrite hull_single in M. exists gs. simpl. auto.
  - intros cur_lo cur_hi cur_v lo hi v rest out H. simpl.
    apply String.eqb_neq in H. now rewrite H.
Qed.

Lemma merge_valued_never_mixes_values_witness :
  merge_valued_loop 0x41 0x45 "X" [(0x46, 0x46, "Y"%string)] []
  = merge_valued_loop 0x46 0x46 "Y" [] [(0x41, 0x45, "X"%string)].
Proof.
  apply (proj1 (proj2 merge_valued_never_mixes_values)). discriminate.
Defined.

(** C4: both merges are idempotent: merging the output of a merge gives
    that output again, for every input list. *)
Theorem merges_idempotent :
  (forall ranges, _merge_ranges (_merge_ranges ranges) = _merge_ranges ranges)
  /\ (forall rows,
        _merge_valued_ranges (_merge_valued_ranges rows)
        = _merge_valued_ranges rows).
Proof.
  split; [|apply merge_valued_idem].
  intros ranges. rewrite (merge_ranges_tag (_merge_ranges ranges)).
  rewrite (merge_ranges_tag ranges) at 1.
  rewrite map_tag_untag, merge_valued_idem; [symmetry; apply merge_ranges_tag|].
  apply merge_valued_vals with (P := fun v => v = EmptyString), tag_vals.
Qed.

(** C8: both merges depend on the rows only, not on their order: two
    input lists that are permutations of each other give the same
    output list. *)
Theorem merges_ignore_input_order :
  (forall r1 r2 : list range,
     Permutation r1 r2 -> _merge_ranges r1 = _merge_ranges r2)
  /\ (forall v1 v2 : list vrange,
        Permutation v1 v2 -> _merge_valued_ranges v1 = _merge_valued_ranges v2).
Proof.
  split.
  - intros r1 r2 P. rewrite !merge_ranges_sorted_eq.
    now rewrite (sorted_permutation_invariant key2_leb key2_leb_total
                   key2_leb_trans key2_leb_antisym r1 r2 P).
  - intros v1 v2 P. rewrite !merge_valued_eq.
    now rewrite (sorted_permutation_invariant key3_leb key3_leb_total
                   key3_leb_trans key3_leb_antisym v1 v2 P).
Qed.

Lemma merges_ignore_input_order_witness :
  _merge_ranges [(0x370, 0x374); (0x300, 0x36F)]
  = _merge_ranges [(0x300, 0x36F); (0x370, 0x374)]
  /\ _merge_valued_ranges [(0x50, 0x50, "Y"%string); (0x41, 0x45, "X"%string)]
     = _merge_valued_ranges [(0x41, 0x45, "X"%string); (0x50, 0x50, "Y"%string)].
Proof.
  split.
  - apply (proj1 merges_ignore_input_order). apply perm_swap.
  - apply (proj2 merges_ignore_input_order). apply perm_swap.
Defined.

(** C10: for every list of valued rows and every value [v], the
    codepoints covered by the output rows tagged [v] are exactly those
    covered by the input rows tagged [v]: no codepoint is dropped and
    none changes its value. *)
Theorem merge_valued_keeps_codepoints (rows : list vrange) (v : string) (c : Z) :
  vcovered (_merge_valued_ranges rows) v c <-> vcovered rows v c.
Proof. apply merge_valued_vcovered. Qed.

(** ** Invariant validator *)

(** The claim C3 as stated fails: the valued merge keeps rows of
    different values apart even when they overlap, and the validator
    rejects what it then returns. *)
Lemma validator_rejects_merged_overlap :
  _merge_valued_ranges [(0x300, 0x36F, "Extend"%string);
                        (0x360, 0x370, "Control"%string)]
  = [(0x300, 0x36F, "Extend"%string); (0x360, 0x370, "Control"%string)]
  /\ _assert_disjoint_sorted
       (_merge_valued_ranges [(0x300, 0x36F, "Extend"%string);
                              (0x360, 0x370, "Control"%string)]) "GCB"
     = inl (ValueError "GCB: overlapping ranges at U+0360").
Proof. split; reflexivity. Qed.

(** C3, amended: the validator accepts the output of the valued merge
    for every list of rows with [0 <= lo <= hi] in which rows of
    different values share no codepoint; and on every list in which,
    after sorting by [(lo, hi)], some entry starts at or before the end
    of the entry before it, it raises the overlap error carrying the
    [lo] of the first entry that does so (the walk starts from a
    previous end of [-1]). *)
Theorem validator_gate (rows : list vrange) (label : string) :
  (Forall (fun r => 0 <= lo r <= hi r) rows -> values_apart rows ->
   _assert_disjoint_sorted (_merge_valued_ranges rows) label = inr tt)
  /\ ((exists l1 a b l2,
         sorted key_lohi_leb rows = l1 ++ a :: b :: l2 /\ lo b <= hi a) ->
      exists l1 c l2,
        sorted key_lohi_leb rows = l1 ++ c :: l2
        /\ ~ overlap_from (-1) l1
        /\ lo c <= last (map hi l1) (-1)
        /\ _assert_disjoint_sorted rows label
           = inl (ValueError (label ++ ": overlapping ranges at U+"
                              ++ format_04X (lo c))%string)).
Proof.
  split.
  - intros N V. unfold _assert_disjoint_sorted.
    assert (Forall (fun r => lo r <= hi r) rows) as N'
        by (eapply Forall_impl; [|exact N]; simpl; intros; lia).
    assert (Forall (fun r => 0 <= lo r) rows) as P
        by (eapply Forall_impl; [|exact N]; simpl; intros; lia).
    destruct (merge_valued_apart rows N' V) as [S _].
    apply merge_valued_los in P.
    rewrite sorted_fixed.
    + apply disjoint_loop_ok; [now apply StronglySorted_Sorted|].
      intros b t E. rewrite E in P. inversion P; subst. lia.
    + eapply StronglySorted_mono; [|apply merge_valued_le3].
      apply le3_key_lohi.
  - intros (l1 & a & b & l2 & E & H). unfold _assert_disjoint_sorted.
    apply (disjoint_loop_first label). rewrite E.
    now apply overlap_from_adjacent.
Qed.

Lemma validator_gate_witness :
  _assert_disjoint_sorted
    (_merge_valued_ranges
       [(0x41, 0x41, "X"%string); (0x42, 0x45, "X"%string);
        (0x50, 0x50, "Y"%string)]) "GCB"
  = inr tt
  /\ exists l1 c l2,
       sorted key_lohi_leb
         [(0x360, 0x370, "Control"%string); (0x300, 0x36F, "Extend"%string)]
       = l1 ++ c :: l2
       /\ ~ overlap_from (-1) l1
       /\ lo c <= last (map hi l1) (-1)
       /\ _assert_disjoint_sorted
            [(0x360, 0x370, "Control"%string); (0x300, 0x36F, "Extend"%string)]
            "GCB"
          = inl (ValueError ("GCB" ++ ": overlapping ranges at U+"
                             ++ format_04X (lo c))%string).
Proof.
  split.
  - apply (proj1 (validator_gate _ "GCB")).
    + repeat (constructor; [unfold lo, hi; simpl; lia|]). constructor.
    + intros r1 r2 I1 I2 H. simpl in I1, I2.
      destruct I1 as [<-|[<-|[<-|[]]]], I2 as [<-|[<-|[<-|[]]]];
        unfold lo, hi, val in *; simpl in *; try lia; congruence.
  - apply (proj2 (validator_gate _ "GCB")).
    exists [], (0x300, 0x36F, "Extend"%string),
      (0x360, 0x370, "Control"%string), [].
    split; [reflexivity|]. unfold lo, hi; simpl; lia.
Defined.

(** ** Table emitter: numbers *)

(** C5: every value [0 <= x <= 0xFFFF] is rendered with exactly four
    upper-case hex digits (zero-padded), every larger value with as many
    hex digits as it needs and no more, both between the prefix [0x] and
    the unsigned suffix [u]; reading the digits back as hexadecimal
    gives [x]; the four boundary values render as expected and read
    back. *)
Theorem fmt_u32_roundtrip :
  (forall x,
     fmt_u32 x = ("0x" ++ fmt_digits x ++ "u")%string
     /\ int16 (fmt_digits x) = inr x
     /\ _parse_codepoint_range (fmt_digits x) = inr (x, x))
  /\ (forall x,
        0 <= x ->
        string_forall is_upper_hex (fmt_digits x) = true
        /\ (x <= 0xFFFF -> String.length (fmt_digits x) = 4%nat)
        /\ (0xFFFF < x ->
            16 ^ (Z.of_nat (String.length (fmt_digits x)) - 1) <= x
            < 16 ^ Z.of_nat (String.length (fmt_digits x))))
  /\ map fmt_u32 [0x0; 0xFFFF; 0x10000; 0x10FFFF]
     = ["0x0000u"; "0xFFFFu"; "0x10000u"; "0x10FFFFu"]%string
  /\ map int16 ["0000"; "FFFF"; "10000"; "10FFFF"]%string
     = [inr 0x0; inr 0xFFFF; inr 0x10000; inr 0x10FFFF].
Proof.
  split; [|split; [|split; reflexivity]].
  - intros x. split; [|apply fmt_digits_read_back].
    unfold fmt_u32, fmt_digits. now destruct (x <=? 0xFFFF).
  - intros x H. destruct (fmt_digits_spec x H) as (_ & F & _ & L4 & B).
    auto.
Qed.

Lemma fmt_u32_roundtrip_witness :
  string_forall is_upper_hex (fmt_digits 0x1F600) = true
  /\ (0x1F600 <= 0xFFFF -> String.length (fmt_digits 0x1F600) = 4%nat)
  /\ (0xFFFF < 0x1F600 ->
      16 ^ (Z.of_nat (String.length (fmt_digits 0x1F600)) - 1) <= 0x1F600
      < 16 ^ Z.of_nat (String.length (fmt_digits 0x1F600))).
Proof.
  apply (proj1 (proj2 fmt_u32_roundtrip) 0x1F600). lia.
Defined.

(** ** Line parser *)

(** The claim C6 as stated fails: a line of the record shape whose
    property is not in the wanted set is dropped before its codepoints
    are looked at, so an out-of-range field raises nothing there. *)
Lemma unwanted_line_is_not_range_checked :
  _DATA_RE_match (strip "110000; Control") = Some ("110000", "Control")%string
  /\ _parse_codepoint_range "110000" = inr (0x110000, 0x110000)
  /\ (0x110000 >? 0x10FFFF) = true
  /\ _parse_property_file "EastAsianWidth.txt" ["110000; Control"%string]
       (Some ["W"; "F"]%string)
     = inr [].
Proof. repeat split; reflexivity. Qed.

(** C6, amended: for every line of the record shape whose property
    passes the wanted filter, the loop raises the range error, whose
    message carries the raw codepoint field and the path, exactly when
    the field parses to [lo], [hi] with [lo > hi], [hi > 0x10FFFF] or
    [lo < 0]; the error of a line ends the whole parse; a line whose
    property is not wanted is dropped unchecked; and the line
    ["110000; Control"] raises the range error when no wanted set is
    given or [Control] is wanted. *)
Theorem parser_range_error :
  (forall path wanted rows line cp_field prop,
     _DATA_RE_match (strip line) = Some (cp_field, prop) ->
     not_wanted wanted prop = false ->
     (parse_line path wanted rows line
      = inl (ValueError ("invalid codepoint range " ++ cp_field
                         ++ " in " ++ path)%string)
      <-> exists lo hi,
            _parse_codepoint_range cp_field = inr (lo, hi)
            /\ (lo > hi \/ hi > 0x10FFFF \/ lo < 0)))
  /\ (forall path wanted rows line e before after,
        parse_lines path wanted [] before = inr rows ->
        parse_line path wanted rows line = inl e ->
        _parse_property_file path (before ++ line :: after) wanted = inl e)
  /\ (forall path wanted rows line cp_field prop,
        _DATA_RE_match (strip line) = Some (cp_field, prop) ->
        not_wanted wanted prop = true ->
        parse_line path wanted rows line = inr rows)
  /\ (forall path,
        _parse_property_file path ["110000; Control"%string] None
        = inl (RangeError "110000" path)
        /\ _parse_property_file path ["110000; Control"%string] (Some gcb_props)
           = inl (RangeError "110000" path)).
Proof.
  split; [|split; [|split]].
  - intros path wanted rows line cp_field prop M W.
    rewrite (parse_line_matched _ _ _ _ _ _ M W).
    destruct (_parse_codepoint_range cp_field) as [e|[lo hi]] eqn:P.
    + split.
      * intros H. destruct (parse_codepoint_range_error _ _ P) as [s ->].
        discriminate H.
      * intros (lo & hi & C & _). discriminate C.
    + destruct ((lo <? 0) || (hi >? 0x10FFFF) || (lo >? hi)) eqn:B.
      * split; [|reflexivity]. intros _. exists lo, hi. split; [reflexivity|].
        rewrite !orb_true_iff, Z.ltb_lt, !Z.gtb_gt in B. lia.
      * split; [discriminate|]. intros (lo' & hi' & C & R).
        inversion C; subst.
        rewrite !orb_false_iff, Z.ltb_ge in B. destruct B as [[B1 B2] B3].
        rewrite Z.gtb_ltb, Z.ltb_ge in B2, B3. lia.
  - intros path wanted rows line e before after B L.
    unfold _parse_property_file. rewrite parse_lines_app, B. simpl.
    now rewrite L.
  - intros. eapply parse_line_unwanted; eassumption.
  - intros path. split; reflexivity.
Qed.

Lemma parser_range_error_witness :
  (parse_line "GraphemeBreakProperty.txt" (Some gcb_props) []
     "005A..0041 ; Control # reversed"
   = inl (ValueError ("invalid codepoint range " ++ "005A..0041"
                      ++ " in " ++ "GraphemeBreakProperty.txt")%string)
   <-> exists lo hi,
         _parse_codepoint_range "005A..0041" = inr (lo, hi)
         /\ (lo > hi \/ hi > 0x10FFFF \/ lo < 0))
  /\ parse_line "GraphemeBreakProperty.txt" (Some gcb_props) []
       "005A..0041 ; Control # reversed"
     = inl (RangeError "005A..0041" "GraphemeBreakProperty.txt").
Proof.
  split; [|reflexivity].
  apply (proj1 parser_range_error "GraphemeBreakProperty.txt"%string
           (Some gcb_props) [] "005A..0041 ; Control # reversed"%string
           "005A..0041"%string "Control"%string); reflexivity.
Defined.

(** ** The run: all or nothing *)

Lemma io_bind_lift_error {A B : Type} (r : result A) (k : A -> io B) tr e :
  io_bind (io_lift r) k = (tr, inl e) ->
  (r = inl e /\ tr = []) \/ (exists a, r = inr a /\ k a = (tr, inl e)).
Proof.
  unfold io_bind, io_lift. destruct r as [e'|a].
  - intros H. inversion H. now left.
  - destruct (k a) as [tr' r'] eqn:K. simpl. intros H. inversion H; subst.
    right. exists a. now rewrite K.
Qed.

Lemma io_bind_lift_ok {A B : Type} (r : result A) (k : A -> io B) tr b :
  io_bind (io_lift r) k = (tr, inr b) ->
  exists a, r = inr a /\ k a = (tr, inr b).
Proof.
  unfold io_bind, io_lift. destruct r as [e'|a]; [discriminate|].
  destruct (k a) as [tr' r'] eqn:K. simpl. intros H. inversion H; subst.
  exists a. now rewrite K.
Qed.

Lemma no_write_nil : no_write [].
Proof. intros p t []. Qed.

(** C9: a run that ends in an error, whether raised by the parser, by
    the validator or by the emitter, has written no output; a run that
    succeeds has written it once, as its last action.  The emitter
    builds the whole text first: when a row's property has no symbolic
    name it raises the unmapped-symbol error for the first such row and
    nothing is written; otherwise its one write carries the header and
    all four formatted tables. *)
Theorem run_writes_all_or_nothing :
  (forall srcs read_lines out tr e,
     main srcs read_lines out = (tr, inl e) -> no_write tr)
  /\ (forall srcs read_lines out tr z,
        main srcs read_lines out = (tr, inr z) ->
        z = 0 /\ exists text, tr = [MkdirParent out; WriteText out text])
  /\ (forall out_path gcb ep emoji_pres eaw_wide,
        match first_unmapped gcb with
        | Some r =>
            _emit_inc out_path gcb ep emoji_pres eaw_wide
            = ([MkdirParent out_path],
               inl (ValueError ("unmapped GCB prop: " ++ val r)%string))
        | None =>
            exists t1,
              emit_ranges8 "kGcbRanges" gcb = inr t1
              /\ _emit_inc out_path gcb ep emoji_pres eaw_wide
                 = ([MkdirParent out_path;
                     WriteText out_path
                       (hdr ++ nl
                        ++ join (nl ++ nl)
                             [t1;
                              emit_ranges "kExtendedPictographicRanges" ep;
                              emit_ranges "kEmojiPresentationRanges" emoji_pres;
                              emit_ranges "kEawWideRanges" eaw_wide]
                        ++ nl)%string],
                    inr tt)
        end).
Proof.
  split; [|split].
  - intros srcs read_lines out tr e H. unfold main in H.
    repeat (apply io_bind_lift_error in H;
            destruct H as [[_ ->]|(? & _ & H)]; [apply no_write_nil|]).
    unfold io_bind in H.
    match type of H with
    | context [_emit_inc ?o ?g ?a ?b ?c] =>
        destruct (_emit_inc o g a b c) as [tr' [e'|[]]] eqn:E
    end.
    + inversion H; subst. eapply emit_inc_no_partial_write; eassumption.
    + simpl in H. discriminate H.
  - intros srcs read_lines out tr z H. unfold main in H.
    repeat (apply io_bind_lift_ok in H; destruct H as (? & _ & H)).
    unfold io_bind in H.
    match type of H with
    | context [_emit_inc ?o ?g ?a ?b ?c] =>
        pose proof (emit_inc_spec o g a b c) as S;
        destruct (first_unmapped g)
    end.
    + rewrite S in H. discriminate H.
    + destruct S as (t1 & _ & S). rewrite S in H. simpl in H.
      inversion H; subst. split; [reflexivity|]. eexists. reflexivity.
  - intros. apply emit_inc_spec.
Qed.

Lemma run_writes_all_or_nothing_witness :
  main (fun name => name)
    (fun path =>
       if (path =? "GraphemeBreakProperty.txt")%string
       then ["0041..0045 ; L"; "0043 ; V"]%string
       else [])
    "zr_unicode_data_tables_15_1_0.inc"
  = ([], inl (OverlapError "GCB" 0x43))
  /\ no_write [].
Proof.
  split; [reflexivity|].
  apply (proj1 run_writes_all_or_nothing (fun name => name)
           (fun path =>
              if (path =? "GraphemeBreakProperty.txt")%string
              then ["0041..0045 ; L"; "0043 ; V"]%string
              else [])
           "zr_unicode_data_tables_15_1_0.inc"%string []
           (OverlapError "GCB" 0x43)).
  reflexivity.
Defined.

(** * Further properties of the generator *)

(** ** The mergers *)

Lemma Sorted_impl_in {A : Type} (R R' : A -> A -> Prop) (P : A -> Prop) l :
  (forall a b, P a -> P b -> R a b -> R' a b) ->
  Forall P l -> Sorted R l -> Sorted R' l.
Proof.
  intros HR F S. induction S as [|a l S IH H]; constructor.
  - apply IH. now inversion F.
  - inversion F as [|? ? Pa Fl]; subst.
    destruct H as [|b l' Rab]; constructor.
    inversion Fl; subst. now apply HR.
Qed.

Lemma Sorted_map {A B : Type} (f : A -> B) (R : B -> B -> Prop) l :
  Sorted (fun a b => R (f a) (f b)) l -> Sorted R (map f l).
Proof.
  induction 1 as [|a l S IH H]; simpl; constructor; [exact IH|].
  destruct H; simpl; constructor. assumption.
Qed.

Lemma merge_valued_unmerged rows : Sorted unmerged (_merge_valued_ranges rows).
Proof.
  rewrite merge_valued_eq.
  destruct (sorted key3_leb rows) as [|cur rest]; simpl; [constructor|].
  apply mv_from_unmerged.
Qed.

Lemma merge_tagged_vals ranges :
  Forall (fun x => val x = EmptyString) (_merge_valued_ranges (map tag ranges)).
Proof.
  apply merge_valued_vals with (P := fun v => v = EmptyString), tag_vals.
Qed.

(** X1: whatever the input, no two neighbours of a merge's output could
    be merged further: in the valued merge a row either carries another
    value than the row before it or starts beyond the codepoint that
    follows its end; in the unvalued merge it always starts beyond. *)
Theorem merges_leave_nothing_to_merge :
  (forall rows,
     Sorted (fun a b => val b <> val a \/ hi a + 1 < lo b)
       (_merge_valued_ranges rows))
  /\ (forall ranges,
        Sorted (fun a b => snd a + 1 < fst b) (_merge_ranges ranges)).
Proof.
  split.
  - intros rows.
    apply Sorted_impl_in with (R := unmerged) (P := fun _ => True).
    + intros a b _ _ U. now apply extends_false.
    + apply Forall_forall. auto.
    + apply merge_valued_unmerged.
  - intros ranges. rewrite merge_ranges_tag. apply Sorted_map.
    apply Sorted_impl_in with (R := unmerged)
                              (P := fun x => val x = EmptyString).
    + intros a b Va Vb U. apply extends_false in U.
      destruct U as [U|U]; [congruence|exact U].
    + apply merge_tagged_vals.
    + apply merge_valued_unmerged.
Qed.

Lemma mv_from_sources S rest : forall cur,
  from_rows S cur -> incl rest S -> Forall (from_rows S) (mv_from cur rest).
Proof.
  induction rest as [|r t IH]; intros cur C I; simpl.
  - constructor; [exact C|constructor].
  - assert (incl t S) as It by (intros x Hx; apply I; now right).
    assert (In r S) as Ir by (apply I; now left).
    destruct (extends cur r) eqn:E.
    + apply IH; [|exact It]. apply extends_true in E. destruct E as [Ev _].
      destruct C as [(r1 & I1 & L1 & V1) (r2 & I2 & H2 & V2)].
      split; [exists r1; auto|].
      destruct (Z.max_spec (hi cur) (hi r)) as [[_ M]|[_ M]].
      * exists r. unfold hi, val in *. simpl. rewrite M. auto.
      * exists r2. unfold hi, val in *. simpl. rewrite M. auto.
    + constructor; [exact C|]. apply IH; [|exact It].
      split; exists r; auto.
Qed.

Lemma mv_from_length rest : forall cur,
  (List.length (mv_from cur rest) <= S (List.length rest))%nat.
Proof.
  induction rest as [|r t IH]; intros cur; simpl; [lia|].
  destruct (extends cur r); simpl.
  - specialize (IH (lo cur, Z.max (hi cur) (hi r), val cur)). lia.
  - specialize (IH r). lia.
Qed.

Lemma merge_valued_sources rows :
  Forall (from_rows rows) (_merge_valued_ranges rows)
  /\ (List.length (_merge_valued_ranges rows) <= List.length rows)%nat.
Proof.
  rewrite merge_valued_eq.
  pose proof (sorted_perm key3_leb rows) as P.
  rewrite (Permutation_length P).
  assert (incl (sorted key3_leb rows) rows) as I
      by (intros x Hx; now apply (proj1 (sorted_in key3_leb x rows))).
  destruct (sorted key3_leb rows) as [|cur rest]; simpl.
  - split; [constructor|lia].
  - split; [|apply mv_from_length].
    apply mv_from_sources.
    + split; exists cur; (split; [apply I; now left|auto]).
    + intros x Hx. apply I. now right.
Qed.

(** X2: a merge invents nothing: every output row of the valued merge
    starts where an input row of its value starts and ends where an
    input row of its value ends, every output range of the unvalued
    merge starts at an input [lo] and ends at an input [hi], and
    neither output is longer than its input. *)
Theorem merges_keep_endpoints :
  (forall rows,
     Forall (from_rows rows) (_merge_valued_ranges rows)
     /\ (List.length (_merge_valued_ranges rows) <= List.length rows)%nat)
  /\ (forall ranges,
        Forall (fun o => (exists r, In r ranges /\ fst r = fst o)
                         /\ (exists r, In r ranges /\ snd r = snd o))
          (_merge_ranges ranges)
        /\ (List.length (_merge_ranges ranges) <= List.length ranges)%nat).
Proof.
  split; [apply merge_valued_sources|].
  intros ranges. rewrite merge_ranges_tag.
  destruct (merge_valued_sources (map tag ranges)) as [F L].
  rewrite List.length_map in *. split; [|exact L].
  apply Forall_map. eapply Forall_impl; [|exact F].
  intros o [(r1 & I1 & L1 & _) (r2 & I2 & H2 & _)].
  apply in_map_iff in I1, I2.
  destruct I1 as (q1 & <- & J1), I2 as (q2 & <- & J2).
  split; [exists q1|exists q2]; auto.
Qed.

Lemma merge_valued_fixed rows :
  StronglySorted le3 rows -> Sorted unmerged rows ->
  _merge_valued_ranges rows = rows.
Proof.
  intros S U. rewrite merge_valued_eq, sorted_fixed.
  - destruct rows as [|cur rest]; [reflexivity|]. now apply mv_from_fixed.
  - eapply StronglySorted_mono; [|exact S]. intros a b. apply key3_leb_le3.
Qed.

Lemma canonical_tagged ranges :
  canonical ranges ->
  StronglySorted le3 (map tag ranges) /\ Sorted unmerged (map tag ranges).
Proof.
  intros [S N]. split.
  - apply StronglySorted_map. eapply StronglySorted_mono_in; [|exact S].
    rewrite Forall_forall in N. intros a b Ia _ G. specialize (N a Ia).
    left. unfold tag, lo. simpl. lia.
  - apply Sorted_map. apply StronglySorted_Sorted in S.
    apply Sorted_impl_in with (R := fun a b => snd a + 1 < fst b)
                              (P := fun _ => True); auto.
    + intros a b _ _ G. apply extends_false. right. exact G.
    + apply Forall_forall. auto.
Qed.

Lemma merge_ranges_canonical ranges :
  Forall (fun r => fst r <= snd r) ranges -> canonical (_merge_ranges ranges).
Proof.
  intros N. rewrite merge_ranges_tag.
  assert (Forall (fun r => lo r <= hi r) (map tag ranges)) as N'
      by (apply Forall_map; exact N).
  destruct (merge_valued_apart _ N' (one_value_apart _ _ (tag_vals ranges)))
    as [S F].
  pose proof (merge_tagged_vals ranges) as V. rewrite Forall_forall in V.
  split.
  - apply StronglySorted_map. eapply StronglySorted_mono_in; [|exact S].
    intros a b Ia Ib [_ G]. apply G. now rewrite (V a Ia), (V b Ib).
  - apply Forall_map. exact F.
Qed.

Lemma merge_ranges_covered ranges c :
  covered (_merge_ranges ranges) c <-> covered ranges c.
Proof.
  rewrite merge_ranges_tag, covered_untag by apply merge_tagged_vals.
  now rewrite merge_valued_vcovered, <- covered_tag.
Qed.

Lemma canonical_inv a l :
  canonical (a :: l) ->
  fst a <= snd a /\ Forall (fun x => snd a + 1 < fst x) l /\ canonical l.
Proof.
  intros [S N]. inversion S; subst. inversion N; subst.
  repeat split; assumption.
Qed.

Lemma canonical_tail_beyond a l c :
  canonical (a :: l) -> covered l c -> snd a + 1 < c.
Proof.
  intros C H. destruct (canonical_inv _ _ C) as (_ & F & _).
  unfold covered in H. rewrite Exists_exists in H. destruct H as (x & Ix & Hx).
  rewrite Forall_forall in F. specialize (F x Ix). unfold covers in Hx. lia.
Qed.

Lemma canonical_head_least a l c :
  canonical (a :: l) -> covered (a :: l) c -> fst a <= c.
Proof.
  intros C H. destruct (canonical_inv _ _ C) as (N & _ & _).
  unfold covered in H. rewrite Exists_cons in H. destruct H as [H|H].
  - unfold covers in H. lia.
  - pose proof (canonical_tail_beyond _ _ _ C H). lia.
Qed.

Lemma covered_head a l : fst a <= snd a -> covered (a :: l) (fst a).
Proof. intros N. apply Exists_cons_hd. unfold covers. lia. Qed.

Lemma canonical_end_bound a l b m :
  canonical (a :: l) -> canonical (b :: m) -> fst a = fst b ->
  (forall c, covered (a :: l) c <-> covered (b :: m) c) ->
  snd b <= snd a.
Proof.
  intros Ca Cb E H.
  destruct (Z_le_gt_dec (snd b) (snd a)) as [?|G]; [assumption|exfalso].
  destruct (canonical_inv _ _ Ca) as (Na & _ & _).
  assert (covered (a :: l) (snd a + 1)) as C.
  { apply H. apply Exists_cons_hd. unfold covers. lia. }
  unfold covered in C. rewrite Exists_cons in C. destruct C as [C|C].
  - unfold covers in C. lia.
  - pose proof (canonical_tail_beyond _ _ _ Ca C). lia.
Qed.

(** Two lists in merged form that cover the same codepoints are equal. *)
Lemma canonical_unique l : forall m,
  canonical l -> canonical m ->
  (forall c, covered l c <-> covered m c) -> l = m.
Proof.
  induction l as [|a l IH]; intros [|b m] Cl Cm H.
  - reflexivity.
  - exfalso. destruct (canonical_inv _ _ Cm) as (N & _ & _).
    pose proof (proj2 (H _) (covered_head b m N)) as C. inversion C.
  - exfalso. destruct (canonical_inv _ _ Cl) as (N & _ & _).
    pose proof (proj1 (H _) (covered_head a l N)) as C. inversion C.
  - destruct (canonical_inv _ _ Cl) as (Na & _ & Cl').
    destruct (canonical_inv _ _ Cm) as (Nb & _ & Cm').
    assert (fst a = fst b) as E1.
    { pose proof (canonical_head_least _ _ _ Cm
                    (proj1 (H _) (covered_head a l Na))).
      pose proof (canonical_head_least _ _ _ Cl
                    (proj2 (H _) (covered_head b m Nb))). lia. }
    assert (snd a = snd b) as E2.
    { pose proof (canonical_end_bound _ _ _ _ Cl Cm E1 H).
      pose proof (canonical_end_bound _ _ _ _ Cm Cl (eq_sym E1)
                    (fun c => iff_sym (H c))). lia. }
    assert (a = b) as -> by (destruct a, b; simpl in *; congruence).
    f_equal. apply IH; [exact Cl'|exact Cm'|]. intros c. split; intros C.
    + pose proof (canonical_tail_beyond _ _ _ Cl C) as G.
      assert (covered (b :: m) c) as C' by (apply H; now apply Exists_cons_tl).
      unfold covered in C'. rewrite Exists_cons in C'.
      destruct C' as [C'|C']; [unfold covers in C'; lia|exact C'].
    + pose proof (canonical_tail_beyond _ _ _ Cm C) as G.
      assert (covered (b :: l) c) as C' by (apply H; now apply Exists_cons_tl).
      unfold covered in C'. rewrite Exists_cons in C'.
      destruct C' as [C'|C']; [unfold covers in C'; lia|exact C'].
Qed.

Lemma merge_ranges_same_cover l1 l2 :
  Forall (fun r => fst r <= snd r) l1 -> Forall (fun r => fst r <= snd r) l2 ->
  (forall c, covered l1 c <-> covered l2 c) ->
  _merge_ranges l1 = _merge_ranges l2.
Proof.
  intros N1 N2 H. apply canonical_unique; try now apply merge_ranges_canonical.
  intros c. now rewrite !merge_ranges_covered.
Qed.

(** X3: a list that already has the merged form passes through the
    merge unchanged: ranges with [lo <= hi], each starting beyond the
    codepoint after the end of the one before, through the unvalued
    merge; rows in [(lo, hi, value)] order whose neighbours differ in
    value or leave such a gap, through the valued merge. *)
Theorem merged_lists_are_fixed :
  (forall ranges, canonical ranges -> _merge_ranges ranges = ranges)
  /\ (forall rows,
        StronglySorted (le_by key3_leb) rows ->
        Sorted (fun a b => val b <> val a \/ hi a + 1 < lo b) rows ->
        _merge_valued_ranges rows = rows).
Proof.
  split.
  - intros ranges C. destruct (canonical_tagged _ C) as [S U].
    now rewrite merge_ranges_tag, (merge_valued_fixed _ S U), map_untag_tag.
  - intros rows S U. apply merge_valued_fixed.
    + eapply StronglySorted_mono; [|exact S]. intros a b. apply key3_leb_le3.
    + apply Sorted_impl_in
        with (R := fun a b => val b <> val a \/ hi a + 1 < lo b)
             (P := fun _ => True); auto.
      * intros a b _ _ G. now apply extends_false.
      * apply Forall_forall. auto.
Qed.

Lemma merged_lists_are_fixed_witness :
  _merge_ranges [(0x41, 0x5A); (0x61, 0x7A)] = [(0x41, 0x5A); (0x61, 0x7A)]
  /\ _merge_valued_ranges [(0x41, 0x45, "X"%string); (0x46, 0x50, "Y"%string)]
     = [(0x41, 0x45, "X"%string); (0x46, 0x50, "Y"%string)].
Proof.
  split.
  - apply (proj1 merged_lists_are_fixed). split.
    + repeat constructor; simpl; lia.
    + repeat constructor; simpl; lia.
  - apply (proj2 merged_lists_are_fixed).
    + repeat constructor.
    + constructor; [repeat constructor|].
      constructor. left. discriminate.
Defined.

(** X4: for inputs whose ranges all have [lo <= hi], the output of the
    unvalued merge depends on the set of covered codepoints and on
    nothing else: two inputs merge to the same list exactly when they
    cover the same codepoints. *)
Theorem merge_ranges_decided_by_cover (l1 l2 : list range) :
  Forall (fun r => fst r <= snd r) l1 ->
  Forall (fun r => fst r <= snd r) l2 ->
  ((forall c, covered l1 c <-> covered l2 c)
   <-> _merge_ranges l1 = _merge_ranges l2).
Proof.
  intros N1 N2. split; [now apply merge_ranges_same_cover|].
  intros E c. now rewrite <- (merge_ranges_covered l1), E, merge_ranges_covered.
Qed.

Lemma merge_ranges_decided_by_cover_witness :
  (forall c, covered [(0x41, 0x45); (0x43, 0x5A)] c
             <-> covered [(0x4B, 0x5A); (0x41, 0x4A)] c)
  <-> _merge_ranges [(0x41, 0x45); (0x43, 0x5A)]
      = _merge_ranges [(0x4B, 0x5A); (0x41, 0x4A)].
Proof.
  apply (merge_ranges_decided_by_cover [(0x41, 0x45); (0x43, 0x5A)]
           [(0x4B, 0x5A); (0x41, 0x4A)]).
  - repeat (constructor; [simpl; lia|]). constructor.
  - repeat (constructor; [simpl; lia|]). constructor.
Defined.

(** X5: ranges may be merged in chunks: for inputs whose ranges all
    have [lo <= hi], merging two lists separately and then merging the
    two results together gives what merging their concatenation
    gives. *)
Theorem merge_ranges_in_chunks (l1 l2 : list range) :
  Forall (fun r => fst r <= snd r) l1 ->
  Forall (fun r => fst r <= snd r) l2 ->
  _merge_ranges (_merge_ranges l1 ++ _merge_ranges l2)
  = _merge_ranges (l1 ++ l2).
Proof.
  intros N1 N2.
  destruct (merge_ranges_canonical l1 N1) as [_ M1].
  destruct (merge_ranges_canonical l2 N2) as [_ M2].
  apply merge_ranges_same_cover.
  - apply Forall_app. now split.
  - apply Forall_app. now split.
  - intros c. unfold covered. rewrite !Exists_app.
    fold (covered (_merge_ranges l1) c) (covered (_merge_ranges l2) c)
         (covered l1 c) (covered l2 c).
    now rewrite !merge_ranges_covered.
Qed.

Lemma merge_ranges_in_chunks_witness :
  _merge_ranges (_merge_ranges [(0x300, 0x36F); (0x41, 0x5A)]
                 ++ _merge_ranges [(0x370, 0x374); (0x5B, 0x60)])
  = _merge_ranges ([(0x300, 0x36F); (0x41, 0x5A)]
                   ++ [(0x370, 0x374); (0x5B, 0x60)]).
Proof.
  apply (merge_ranges_in_chunks [(0x300, 0x36F); (0x41, 0x5A)]
           [(0x370, 0x374); (0x5B, 0x60)]).
  - repeat (constructor; [simpl; lia|]). constructor.
  - repeat (constructor; [simpl; lia|]). constructor.
Defined.

(** ** The validator *)

Lemma disjoint_loop_accepts label l : forall p,
  disjoint_loop label p l = inr tt <-> ~ overlap_from p l.
Proof.
  induction l as [|[[l0 h0] v0] t IH]; intros p; simpl.
  - split; [intros _ []|reflexivity].
  - unfold lo at 1, hi at 1. simpl. destruct (l0 <=? p) eqn:E.
    + apply Z.leb_le in E. split; [discriminate|]. intros H. exfalso. auto.
    + apply Z.leb_gt in E. rewrite IH. split.
      * intros H [C|C]; [lia|auto].
      * intros H C. apply H. now right.
Qed.

Lemma ForallOrdPairs_perm {A : Type} (R : A -> A -> Prop) l l' :
  (forall a b, R a b -> R b a) ->
  Permutation l l' -> ForallOrdPairs R l -> ForallOrdPairs R l'.
Proof.
  intros Sym P. induction P as [|x l l' P IH|x y l|l l' l'' P1 IH1 P2 IH2];
    intros F.
  - exact F.
  - inversion F as [|? ? Fx Fl]; subst. constructor; [|now apply IH].
    eapply Permutation_Forall; eassumption.
  - inversion F as [|? ? Fy Fxl]; subst. inversion Fxl as [|? ? Fx Fl]; subst.
    inversion Fy as [|? ? Ryx Fy']; subst.
    constructor; [constructor; [now apply Sym|exact Fx]|].
    constructor; assumption.
  - auto.
Qed.

Lemma disjoint_sym a b : disjoint a b -> disjoint b a.
Proof. unfold disjoint. tauto. Qed.

(** On a list in [(lo, hi)] order whose rows have [lo <= hi], the walk
    finds no overlap exactly when every row starts after [p] and no two
    rows share a codepoint. *)
Lemma overlap_free_sorted s : forall p,
  StronglySorted (le_by key_lohi_leb) s ->
  Forall (fun r => lo r <= hi r) s ->
  ~ overlap_from p s
  <-> Forall (fun r => p < lo r) s /\ ForallOrdPairs disjoint s.
Proof.
  induction s as [|c t IH]; intros p S N; simpl.
  - split; [intros _; split; constructor|intros _ []].
  - inversion S as [|? ? St Sc]; subst. inversion N as [|? ? Nc Nt]; subst.
    assert (Forall (fun r => lo c <= lo r) t) as Lc.
    { eapply Forall_impl; [|exact Sc]. intros x Hx.
      unfold le_by in Hx. rewrite key_lohi_leb_spec in Hx. lia. }
    specialize (IH (hi c) St Nt). split.
    + intros H.
      assert (~ overlap_from (hi c) t) as H' by (intros C; apply H; now right).
      apply IH in H'. destruct H' as [F P].
      assert (p < lo c) as Pc by (destruct (Z_lt_le_dec p (lo c)); [assumption|exfalso; apply H; now left]).
      split; constructor; auto.
      * eapply Forall_impl; [|exact F]. simpl. intros; lia.
      * eapply Forall_impl; [|exact F]. intros x Hx. now left.
    + intros [F P] [C|C].
      * inversion F; subst. lia.
      * apply IH in C; [exact C|]. inversion P as [|? ? Pc Pt]; subst.
        split; [|exact Pt]. rewrite Forall_forall in *. intros x Hx.
        specialize (Pc x Hx). specialize (Lc x Hx). specialize (Nt x Hx).
        unfold disjoint in Pc. lia.
Qed.

Lemma sorted_key_lohi rows :
  StronglySorted (le_by key_lohi_leb) (sorted key_lohi_leb rows).
Proof.
  apply sorted_sorted.
  - intros a b. rewrite !key_lohi_leb_spec. lia.
  - intros a b c. rewrite !key_lohi_leb_spec. lia.
Qed.

(** X6: on rows that all have [lo <= hi], the validator returns without
    raising exactly when no row starts below zero and no two rows of
    the list share a codepoint. *)
Theorem validator_accepts_iff_disjoint (rows : list vrange) (label : string) :
  Forall (fun r => lo r <= hi r) rows ->
  (_assert_disjoint_sorted rows label = inr tt
   <-> Forall (fun r => 0 <= lo r) rows /\ ForallOrdPairs disjoint rows).
Proof.
  intros N. unfold _assert_disjoint_sorted.
  pose proof (sorted_perm key_lohi_leb rows) as P.
  rewrite disjoint_loop_accepts, overlap_free_sorted;
    [|apply sorted_key_lohi|eapply Permutation_Forall; eassumption].
  split; intros [F O]; split.
  - apply Permutation_sym in P. apply (Permutation_Forall P) in F.
    eapply Forall_impl; [|exact F]. simpl. intros; lia.
  - eapply ForallOrdPairs_perm; [apply disjoint_sym|symmetry; exact P|exact O].
  - apply (Permutation_Forall P).
    eapply Forall_impl; [|exact F]. simpl. intros; lia.
  - eapply ForallOrdPairs_perm; [apply disjoint_sym|exact P|exact O].
Qed.

Lemma validator_accepts_iff_disjoint_witness :
  _assert_disjoint_sorted
    [(0x1F600, 0x1F64F, "Extend"%string); (0x300, 0x36F, "Extend"%string)]
    "GCB"
  = inr tt
  <-> Forall (fun r => 0 <= lo r)
        [(0x1F600, 0x1F64F, "Extend"%string); (0x300, 0x36F, "Extend"%string)]
      /\ ForallOrdPairs disjoint
           [(0x1F600, 0x1F64F, "Extend"%string);
            (0x300, 0x36F, "Extend"%string)].
Proof.
  apply (validator_accepts_iff_disjoint
           [(0x1F600, 0x1F64F, "Extend"%string); (0x300, 0x36F, "Extend"%string)]
           "GCB").
  repeat (constructor; [unfold lo, hi; simpl; lia|]). constructor.
Defined.

Lemma sorted_map {A B : Type} (f : A -> B) (leb : A -> A -> bool)
  (leb' : B -> B -> bool) l :
  (forall a b, leb a b = leb' (f a) (f b)) ->
  map f (sorted leb l) = sorted leb' (map f l).
Proof.
  intros H. induction l as [|x t IH]; simpl; [reflexivity|]. rewrite <- IH.
  generalize (sorted leb t). intros s.
  induction s as [|y u IHu]; simpl; [reflexivity|].
  rewrite <- H. destruct (leb x y); simpl; [reflexivity|]. now rewrite IHu.
Qed.

Lemma disjoint_loop_fst label l : forall l' p,
  map fst l = map fst l' ->
  disjoint_loop label p l = disjoint_loop label p l'.
Proof.
  induction l as [|[[l0 h0] v0] t IH]; intros [|[[l1 h1] v1] t'] p E;
    simpl in E; try discriminate; [reflexivity|].
  inversion E; subst. simpl. destruct (l1 <=? p); [reflexivity|]. now apply IH.
Qed.

(** X7: the validator looks at the intervals only: two lists whose
    [(lo, hi)] pairs are permutations of each other get the same
    verdict, the same error included, whatever the order of the rows
    and whatever values they carry. *)
Theorem validator_ignores_order_and_values
  (l1 l2 : list vrange) (label : string) :
  Permutation (map fst l1) (map fst l2) ->
  _assert_disjoint_sorted l1 label = _assert_disjoint_sorted l2 label.
Proof.
  intros P. unfold _assert_disjoint_sorted. apply disjoint_loop_fst.
  rewrite !(sorted_map fst key_lohi_leb key2_leb) by reflexivity.
  now apply (sorted_permutation_invariant key2_leb key2_leb_total
               key2_leb_trans key2_leb_antisym).
Qed.

Lemma validator_ignores_order_and_values_witness :
  _assert_disjoint_sorted
    [(0x300, 0x36F, "Extend"%string); (0x360, 0x370, "Control"%string)] "GCB"
  = _assert_disjoint_sorted
      [(0x360, 0x370, "L"%string); (0x300, 0x36F, "V"%string)] "GCB".
Proof.
  apply (validator_ignores_order_and_values
           [(0x300, 0x36F, "Extend"%string); (0x360, 0x370, "Control"%string)]
           [(0x360, 0x370, "L"%string); (0x300, 0x36F, "V"%string)] "GCB").
  apply perm_swap.
Defined.

(** ** The parser *)

Lemma take_while_forall p s : string_forall p (take_while p s) = true.
Proof.
  induction s as [|c t IH]; simpl; [reflexivity|].
  destruct (p c) eqn:E; simpl; [now rewrite E|reflexivity].
Qed.

(** What the two groups of a match look like. *)
Lemma data_re_match_groups s f prop :
  _DATA_RE_match s = Some (f, prop) ->
  f <> EmptyString /\ string_forall is_cp_char f = true
  /\ prop <> EmptyString /\ string_forall is_prop_char prop = true.
Proof.
  unfold _DATA_RE_match.
  pose proof (take_while_forall is_cp_char s) as F1.
  destruct (take_while is_cp_char s) as [|c1 g1] eqn:G1; [discriminate|].
  destruct (drop_while isspace (drop_while is_cp_char s)) as [|c r];
    [discriminate|].
  pose proof (take_while_forall is_prop_char (drop_while isspace r)) as F2.
  destruct c as [b0 b1 b2 b3 b4 b5 b6 b7].
  destruct b0, b1, b2, b3, b4, b5, b6, b7; try discriminate.
  destruct (take_while is_prop_char (drop_while isspace r)) as [|c2 g2];
    [discriminate|].
  destruct (drop_while is_prop_char (drop_while isspace r)) as [|c3 r3];
    [|destruct (is_word c3); [discriminate|]];
    intros H; inversion H; subst; repeat split; auto; discriminate.
Qed.

Lemma parse_line_cases path wanted rows line rows' :
  parse_line path wanted rows line = inr rows' ->
  rows' = rows
  \/ exists f prop lo hi,
       _DATA_RE_match (strip line) = Some (f, prop)
       /\ not_wanted wanted prop = false
       /\ _parse_codepoint_range f = inr (lo, hi)
       /\ 0 <= lo /\ lo <= hi /\ hi <= 0x10FFFF
       /\ rows' = rows ++ [(lo, hi, prop)].
Proof.
  unfold parse_line.
  destruct ((strip line =? "")%string || startswith_hash (strip line));
    [intros H; inversion H; now left|].
  destruct (_DATA_RE_match (strip line)) as [[f prop]|] eqn:M;
    [|intros H; inversion H; now left].
  destruct (not_wanted wanted prop) eqn:W; [intros H; inversion H; now left|].
  unfold bind. destruct (_parse_codepoint_range f) as [e|[lo hi]] eqn:P;
    [discriminate|].
  destruct ((lo <? 0) || (hi >? 0x10FFFF) || (lo >? hi)) eqn:B; [discriminate|].
  intros H; inversion H; subst. right. exists f, prop, lo, hi.
  rewrite !orb_false_iff, Z.ltb_ge in B. destruct B as [[B1 B2] B3].
  rewrite Z.gtb_ltb, Z.ltb_ge in B2, B3. repeat split; auto.
Qed.

Lemma parse_lines_forall path wanted (P : vrange -> Prop) :
  (forall line f prop lo hi,
     _DATA_RE_match (strip line) = Some (f, prop) ->
     not_wanted wanted prop = false ->
     0 <= lo -> lo <= hi -> hi <= 0x10FFFF -> P (lo, hi, prop)) ->
  forall lines rows rows',
    Forall P rows -> parse_lines path wanted rows lines = inr rows' ->
    Forall P rows'.
Proof.
  intros HP. induction lines as [|line t IH]; intros rows rows' F H; simpl in H.
  - inversion H; subst. exact F.
  - unfold bind in H. destruct (parse_line path wanted rows line) as [e|r1] eqn:L;
      [discriminate|].
    apply IH with (rows := r1); [|exact H].
    apply parse_line_cases in L.
    destruct L as [->|(f & prop & lo & hi & M & W & _ & B1 & B2 & B3 & ->)];
      [exact F|].
    apply Forall_app. split; [exact F|]. constructor; [|constructor]. eauto.
Qed.

Lemma parsed_rows_valid_for_wanted path lines wanted rows :
  _parse_property_file path lines wanted = inr rows ->
  Forall (fun r => not_wanted wanted (val r) = false) rows.
Proof.
  unfold _parse_property_file.
  apply parse_lines_forall; [|constructor].
  intros line f prop l h M W _ _ _. exact W.
Qed.

(** X8: every row the parser returns satisfies the row invariant
    [0 <= lo <= hi <= 0x10FFFF]; its property name is not empty, is made
    of letters and underscores, and passes the wanted filter. *)
Theorem parsed_rows_are_valid path lines wanted rows :
  _parse_property_file path lines wanted = inr rows ->
  Forall (fun r => 0 <= lo r /\ lo r <= hi r /\ hi r <= 0x10FFFF
                   /\ val r <> EmptyString
                   /\ string_forall is_prop_char (val r) = true
                   /\ not_wanted wanted (val r) = false) rows.
Proof.
  unfold _parse_property_file.
  apply parse_lines_forall; [|constructor].
  intros line f prop l h M W B1 B2 B3.
  destruct (data_re_match_groups _ _ _ M) as (_ & _ & N & F).
  unfold lo, hi, val. simpl. auto 10.
Qed.

Lemma parsed_rows_are_valid_witness :
  Forall (fun r => 0 <= lo r /\ lo r <= hi r /\ hi r <= 0x10FFFF
                   /\ val r <> EmptyString
                   /\ string_forall is_prop_char (val r) = true
                   /\ not_wanted (Some ["W"; "F"]%string) (val r) = false)
    [(0x1100, 0x115F, "W"%string); (0xFF01, 0xFF60, "F"%string)].
Proof.
  apply (parsed_rows_are_valid "EastAsianWidth.txt"
           ["# EastAsianWidth-15.1.0.txt"; "";
            "0020          ; Na # Zs         SPACE";
            "1100..115F    ; W  # Lo    [96] HANGUL CHOSEONG KIYEOK";
            "FF01..FF60;F"]%string
           (Some ["W"; "F"]%string)).
  reflexivity.
Defined.

Lemma parse_line_acc path wanted rows line :
  parse_line path wanted rows line
  = bind (parse_line path wanted [] line) (fun r => inr (rows ++ r)).
Proof.
  unfold parse_line.
  destruct ((strip line =? "")%string || startswith_hash (strip line));
    [simpl; now rewrite app_nil_r|].
  destruct (_DATA_RE_match (strip line)) as [[f prop]|];
    [|simpl; now rewrite app_nil_r].
  destruct (not_wanted wanted prop); [simpl; now rewrite app_nil_r|].
  unfold bind. destruct (_parse_codepoint_range f) as [e|[lo hi]];
    [reflexivity|].
  now destruct ((lo <? 0) || (hi >? 0x10FFFF) || (lo >? hi)).
Qed.

Lemma parse_lines_acc path wanted lines : forall rows,
  parse_lines path wanted rows lines
  = bind (parse_lines path wanted [] lines) (fun r => inr (rows ++ r)).
Proof.
  induction lines as [|line t IH]; intros rows; simpl.
  - now rewrite app_nil_r.
  - rewrite (parse_line_acc path wanted rows line).
    destruct (parse_line path wanted [] line) as [e|r1]; simpl; [reflexivity|].
    rewrite (IH (rows ++ r1)), (IH r1).
    destruct (parse_lines path wanted [] t) as [e|r2]; simpl; [reflexivity|].
    now rewrite app_assoc.
Qed.

(** X9: parsing is line by line: the rows of a file made of two parts
    are the rows of the first part followed by the rows of the second,
    and the error of the whole is the first part's error or else the
    second's. *)
Theorem parse_of_concatenation path wanted l1 l2 :
  _parse_property_file path (l1 ++ l2) wanted
  = match _parse_property_file path l1 wanted with
    | inl e => inl e
    | inr r1 =>
        match _parse_property_file path l2 wanted with
        | inl e => inl e
        | inr r2 => inr (r1 ++ r2)
        end
    end.
Proof.
  unfold _parse_property_file. rewrite parse_lines_app. unfold bind.
  destruct (parse_lines path wanted [] l1) as [e|r1]; [reflexivity|].
  rewrite (parse_lines_acc path wanted l2 r1). unfold bind.
  now destruct (parse_lines path wanted [] l2).
Qed.

Lemma parse_line_filter path w line r1 :
  parse_line path None [] line = inr r1 ->
  parse_line path (Some w) [] line
  = inr (filter (fun r => existsb (String.eqb (val r)) w) r1).
Proof.
  unfold parse_line.
  destruct ((strip line =? "")%string || startswith_hash (strip line));
    [intros H; inversion H; reflexivity|].
  destruct (_DATA_RE_match (strip line)) as [[f prop]|];
    [|intros H; inversion H; reflexivity].
  simpl not_wanted. cbv iota. unfold bind.
  destruct (_parse_codepoint_range f) as [e|[lo hi]]; [discriminate|].
  destruct ((lo <? 0) || (hi >? 0x10FFFF) || (lo >? hi)); [discriminate|].
  intros H; inversion H; subst. cbn [app filter val snd].
  now destruct (existsb (String.eqb prop) w).
Qed.

(** X10: filtering while parsing is filtering afterwards: when a file
    parses without a wanted set, it parses with any wanted set, to the
    rows of the unfiltered parse whose property is in the set, in the
    same order. *)
Theorem wanted_filter_commutes path lines w rows :
  _parse_property_file path lines None = inr rows ->
  _parse_property_file path lines (Some w)
  = inr (filter (fun r => existsb (String.eqb (val r)) w) rows).
Proof.
  unfold _parse_property_file. revert rows.
  induction lines as [|line t IH]; intros rows H; simpl in *.
  - inversion H; reflexivity.
  - unfold bind in *.
    destruct (parse_line path None [] line) as [e|r1] eqn:L; [discriminate|].
    rewrite (parse_line_filter _ w _ _ L).
    rewrite parse_lines_acc in H. rewrite parse_lines_acc. unfold bind in *.
    destruct (parse_lines path None [] t) as [e|r2]; [discriminate|].
    inversion H; subst. rewrite (IH r2 eq_refl). now rewrite filter_app.
Qed.

Lemma wanted_filter_commutes_witness :
  _parse_property_file "emoji-data.txt"
    ["1F600 ; Emoji_Presentation"; "00A9 ; Extended_Pictographic";
     "0023 ; Emoji"]%string
    (Some ["Extended_Pictographic"; "Emoji_Presentation"]%string)
  = inr (filter
           (fun r => existsb (String.eqb (val r))
                       ["Extended_Pictographic"; "Emoji_Presentation"]%string)
           [(0x1F600, 0x1F600, "Emoji_Presentation"%string);
            (0xA9, 0xA9, "Extended_Pictographic"%string);
            (0x23, 0x23, "Emoji"%string)]).
Proof.
  apply (wanted_filter_commutes "emoji-data.txt"
           ["1F600 ; Emoji_Presentation"; "00A9 ; Extended_Pictographic";
            "0023 ; Emoji"]%string).
  reflexivity.
Defined.

(** ** Codepoint fields *)

Lemma cp_char_facts c :
  is_cp_char c = true ->
  isspace c = false /\ int_space c = false
  /\ (c =? "_")%char = false /\ (c =? "-")%char = false
  /\ (c =? "+")%char = false /\ (c =? "x")%char = false
  /\ (c =? "X")%char = false
  /\ is_hex_digit c = negb (c =? ".")%char
  /\ (if is_hex_digit c then hex_val c <> None else hex_val c = None).
Proof.
  destruct c as [b0 b1 b2 b3 b4 b5 b6 b7].
  destruct b0, b1, b2, b3, b4, b5, b6, b7; vm_compute; intros H;
    try discriminate H; repeat split; discriminate.
Qed.

Lemma hex_digit_is_cp_char c : is_hex_digit c = true -> is_cp_char c = true.
Proof. unfold is_cp_char, is_hex_digit. now intros ->. Qed.

Lemma hex_val_bounds c d : hex_val c = Some d -> 0 <= d.
Proof.
  destruct c as [b0 b1 b2 b3 b4 b5 b6 b7].
  destruct b0, b1, b2, b3, b4, b5, b6, b7; intros H; vm_compute in H;
    try discriminate H; inversion H; lia.
Qed.

Lemma hex_value_nonneg s : forall a, 0 <= a -> 0 <= hex_value s a.
Proof.
  induction s as [|c t IH]; intros a H; cbn [hex_value]; [exact H|].
  destruct (hex_val c) as [d|] eqn:E; apply IH; [|lia].
  pose proof (hex_val_bounds _ _ E). lia.
Qed.

Lemma strip_by_forall_id p q s :
  (forall c, q c = true -> p c = false) ->
  string_forall q s = true -> rstrip_by p (lstrip_by p s) = s.
Proof.
  intros Hp F. rewrite lstrip_by_id.
  - apply rstrip_by_id. eapply string_forall_impl; [|exact F].
    intros c Hc. now rewrite (Hp c Hc).
  - destruct s as [|c t]; [exact I|]. simpl in F.
    apply andb_true_iff in F. now apply Hp.
Qed.

(** On text made of hex digits and dots, the digit loop succeeds exactly
    on runs of hex digits. *)
Lemma int_digits_cp s : forall a us,
  string_forall is_cp_char s = true ->
  int_digits a us s
  = if string_forall is_hex_digit s
       && (negb us || negb (s =? "")%string)
    then Some (hex_value s a) else None.
Proof.
  induction s as [|c t IH]; intros a us F; simpl.
  - now destruct us.
  - simpl in F. apply andb_true_iff in F. destruct F as [Hc Ht].
    destruct (cp_char_facts c Hc) as (_ & _ & -> & _ & _ & _ & _ & _ & V).
    rewrite orb_true_r, andb_true_r.
    destruct (is_hex_digit c); simpl.
    + destruct (hex_val c) as [d|]; [|congruence].
      rewrite (IH _ false Ht). simpl. now rewrite andb_true_r.
    + now rewrite V.
Qed.

Lemma int16_cp s :
  string_forall is_cp_char s = true ->
  int16 s
  = if string_forall is_hex_digit s && negb (s =? "")%string
    then inr (hex_value s 0)
    else inl (ValueError ("invalid literal for int() with base 16: "
                          ++ repr s)%string).
Proof.
  intros F. unfold int16.
  rewrite (strip_by_forall_id int_space is_cp_char s);
    [|intros c Hc; apply (cp_char_facts c Hc)|exact F].
  destruct s as [|c t]; [reflexivity|].
  pose proof F as F'. simpl in F'. apply andb_true_iff in F'.
  destruct F' as [Hc Ht].
  destruct (cp_char_facts c Hc) as (_ & _ & _ & -> & -> & _).
  assert (int_unsigned (String c t) = int_digits 0 true (String c t)) as ->.
  { unfold int_unsigned. destruct t as [|x u]; [reflexivity|].
    simpl in Ht. apply andb_true_iff in Ht. destruct Ht as [Hx _].
    destruct (cp_char_facts x Hx) as (_ & _ & _ & _ & _ & -> & -> & _).
    now rewrite andb_false_r. }
  rewrite (int_digits_cp _ 0 true F).
  change (negb (String c t =? "")%string) with true.
  simpl (negb true || _).
  now destruct (string_forall is_hex_digit (String c t) && true).
Qed.

Lemma split_dotdot_some s : forall a b,
  split_dotdot s = Some (a, b) -> s = (a ++ ".." ++ b)%string.
Proof.
  induction s as [|c t IH]; intros a b; simpl; [discriminate|].
  destruct t as [|d u]; [discriminate|].
  destruct ((c =? ".")%char && (d =? ".")%char) eqn:E.
  - apply andb_true_iff in E. destruct E as [E1 E2].
    apply Ascii.eqb_eq in E1, E2. subst. intros H; inversion H; reflexivity.
  - destruct (split_dotdot (String d u)) as [[a' b']|] eqn:S; [|discriminate].
    intros H; inversion H; subst. simpl. f_equal. now apply IH.
Qed.

Lemma split_dotdot_hex s :
  string_forall is_hex_digit s = true -> split_dotdot s = None.
Proof.
  induction s as [|c t IH]; simpl; [reflexivity|].
  rewrite andb_true_iff. intros [Hc Ht].
  destruct (cp_char_facts c (hex_digit_is_cp_char c Hc))
    as (_ & _ & _ & _ & _ & _ & _ & D & _).
  rewrite Hc in D. apply (f_equal negb) in D. rewrite negb_involutive in D.
  simpl in D. rewrite <- D.
  destruct t as [|d u]; [reflexivity|]. now rewrite andb_false_l, (IH Ht).
Qed.

Lemma split_dotdot_joined a : forall b,
  string_forall is_hex_digit a = true ->
  split_dotdot (a ++ ".." ++ b) = Some (a, b).
Proof.
  induction a as [|c t IH]; intros b; [reflexivity|].
  simpl string_forall. rewrite andb_true_iff. intros [Hc Ht].
  destruct (cp_char_facts c (hex_digit_is_cp_char c Hc))
    as (_ & _ & _ & _ & _ & _ & _ & D & _).
  rewrite Hc in D. apply (f_equal negb) in D. rewrite negb_involutive in D.
  simpl in D.
  change (String c t ++ ".." ++ b)%string with (String c (t ++ ".." ++ b)%string).
  pose proof (IH b Ht) as S.
  destruct (t ++ ".." ++ b)%string as [|d u] eqn:T; [discriminate S|].
  rewrite split_dotdot_cons, <- D, andb_false_l, S. reflexivity.
Qed.

Lemma string_forall_app_inv p a b :
  string_forall p (a ++ b) = true ->
  string_forall p a = true /\ string_forall p b = true.
Proof. rewrite string_forall_app. apply andb_true_iff. Qed.

Lemma int16_cp_iff s z :
  string_forall is_cp_char s = true ->
  int16 s = inr z <-> hex_numeral s /\ z = hex_value s 0.
Proof.
  intros F. rewrite (int16_cp s F). unfold hex_numeral.
  destruct (string_forall is_hex_digit s); simpl.
  - destruct (String.eqb_spec s EmptyString) as [->|N]; simpl.
    + split; [discriminate|]. intros [[N _] _]. congruence.
    + split; [intros H; inversion H; auto|]. now intros [_ ->].
  - split; [discriminate|]. intros [[_ H] _]. discriminate H.
Qed.

Lemma bind_pair_inr {A B : Type} (m : result A) (n : result B) x y :
  bind m (fun a => bind n (fun b => inr (a, b))) = inr (x, y)
  <-> m = inr x /\ n = inr y.
Proof.
  split.
  - destruct m as [e|a], n as [e'|b]; simpl; intros H; try discriminate H.
    inversion H. auto.
  - intros [-> ->]. reflexivity.
Qed.

(** The fields the codepoint parser accepts, among those made of hex
    digits and dots. *)
Lemma codepoint_field_cases (field : string) (lo hi : Z) :
  string_forall is_cp_char field = true ->
  _parse_codepoint_range field = inr (lo, hi)
  <-> (hex_numeral field
       /\ lo = hex_value field 0 /\ hi = hex_value field 0)
      \/ (exists a b,
            field = (a ++ ".." ++ b)%string
            /\ hex_numeral a /\ hex_numeral b
            /\ lo = hex_value a 0 /\ hi = hex_value b 0).
Proof.
  intros F. unfold _parse_codepoint_range, strip.
  rewrite (strip_by_forall_id isspace is_cp_char field);
    [|intros c Hc; apply (cp_char_facts c Hc)|exact F].
  destruct (split_dotdot field) as [[a b]|] eqn:S.
  - pose proof (split_dotdot_some _ _ _ S) as E.
    pose proof F as F'. rewrite E in F'.
    apply string_forall_app_inv in F'. destruct F' as [Fa F'].
    apply string_forall_app_inv in F'. destruct F' as [_ Fb].
    rewrite bind_pair_inr, (int16_cp_iff a lo Fa), (int16_cp_iff b hi Fb).
    split.
    + intros [[Ha ->] [Hb ->]]. right. exists a, b. auto.
    + intros [([_ H] & _)|(a' & b' & E' & Ha' & Hb' & -> & ->)].
      * rewrite (split_dotdot_hex _ H) in S. discriminate S.
      * rewrite E', (split_dotdot_joined a' b' (proj2 Ha')) in S.
        inversion S; subst. auto.
  - rewrite bind_pair_inr, (int16_cp_iff field lo F),
      (int16_cp_iff field hi F).
    split.
    + intros [[H ->] [_ ->]]. left. auto.
    + intros [(H & -> & ->)|(a' & b' & E' & Ha' & _)]; [auto|].
      rewrite E', (split_dotdot_joined a' b' (proj2 Ha')) in S.
      discriminate S.
Qed.

(** X11: on a field made of hex digits and dots, which is all the
    pattern lets through, the codepoint parser succeeds exactly in two
    cases: the field is one run of hex digits, and both bounds are the
    number it denotes; or it is two such runs joined by [..], and the
    bounds are the two numbers.  The bounds are never negative, so the
    loop's test [lo < 0] cannot be what raises. *)
Theorem codepoint_field_grammar (field : string) (lo hi : Z) :
  string_forall is_cp_char field = true ->
  (_parse_codepoint_range field = inr (lo, hi)
   <-> (hex_numeral field
        /\ lo = hex_value field 0 /\ hi = hex_value field 0)
       \/ (exists a b,
             field = (a ++ ".." ++ b)%string
             /\ hex_numeral a /\ hex_numeral b
             /\ lo = hex_value a 0 /\ hi = hex_value b 0))
  /\ (_parse_codepoint_range field = inr (lo, hi) -> 0 <= lo /\ 0 <= hi).
Proof.
  intros F. pose proof (codepoint_field_cases field lo hi F) as G.
  split; [exact G|]. intros P. apply G in P.
  destruct P as [(_ & -> & ->)|(a & b & _ & _ & _ & -> & ->)];
    split; apply hex_value_nonneg; lia.
Qed.

Lemma codepoint_field_grammar_witness :
  (_parse_codepoint_range "1f3fb..1F3FF" = inr (0x1F3FB, 0x1F3FF)
   <-> (hex_numeral "1f3fb..1F3FF"
        /\ 0x1F3FB = hex_value "1f3fb..1F3FF" 0
        /\ 0x1F3FF = hex_value "1f3fb..1F3FF" 0)
       \/ (exists a b,
             "1f3fb..1F3FF"%string = (a ++ ".." ++ b)%string
             /\ hex_numeral a /\ hex_numeral b
             /\ 0x1F3FB = hex_value a 0 /\ 0x1F3FF = hex_value b 0))
  /\ (_parse_codepoint_range "1f3fb..1F3FF" = inr (0x1F3FB, 0x1F3FF) ->
      0 <= 0x1F3FB /\ 0 <= 0x1F3FF).
Proof.
  apply (codepoint_field_grammar "1f3fb..1F3FF" 0x1F3FB 0x1F3FF).
  reflexivity.
Defined.

(** ** Lines the parser skips, and lines it does not *)

Lemma codepoint_shape_parses (f : string) :
  string_forall is_cp_char f = true ->
  codepoint_shape f <-> exists lo hi, _parse_codepoint_range f = inr (lo, hi).
Proof.
  intros F. unfold codepoint_shape. split.
  - intros [H|(a & b & E & Ha & Hb)].
    + exists (hex_value f 0), (hex_value f 0).
      apply (codepoint_field_cases f _ _ F). left. auto.
    + exists (hex_value a 0), (hex_value b 0).
      apply (codepoint_field_cases f _ _ F). right. exists a, b. auto.
  - intros (lo & hi & P). apply (codepoint_field_cases f _ _ F) in P.
    destruct P as [(H & _)|(a & b & E & Ha & Hb & _)]; [left|right]; eauto.
Qed.

Lemma dotted_number_has_no_shape : ~ codepoint_shape "1.2".
Proof.
  intros H. apply codepoint_shape_parses in H; [|reflexivity].
  destruct H as (lo & hi & P). vm_compute in P. discriminate P.
Qed.

(** C7, against the claim as it stands: the line ["1.2 ; L"] does not
    have the shape [<codepoint>[..<codepoint>] ; <property-name>], its
    field being neither a run of hex digits nor two runs joined by
    [..]; yet the pattern of the parser lets it through, and the parse
    of the file raises the [ValueError] of [int]. *)
Lemma malformed_field_line_raises :
  ~ codepoint_shape "1.2"
  /\ _DATA_RE_match (strip "1.2 ; L") = Some ("1.2", "L")%string
  /\ _parse_property_file "GraphemeBreakProperty.txt" ["1.2 ; L"%string]
       (Some gcb_props)
     = inl (ValueError "invalid literal for int() with base 16: '1.2'").
Proof.
  split; [exact dotted_number_has_no_shape|]. split; reflexivity.
Qed.

(** C7, amended: a blank line, a comment line (leading [#]) and a line
    the pattern of the parser does not match (the pattern wants a run
    of hex digits and dots, then [;], then a property name) each leave
    the rows as they are and raise nothing, so the parse of a file is
    the parse of the file without such a line.  The lines skipped are
    exactly these and the matching lines whose property is not wanted.
    A matching line with a wanted property whose field does not have
    the shape [<codepoint>[..<codepoint>]] is not skipped: it raises
    the [ValueError] of [int].  The line ["zzzz; Foo"] does not match
    the pattern and is skipped. *)
Theorem parser_skips_lines :
  (forall path wanted line,
     strip line = EmptyString \/ startswith_hash line = true
     \/ _DATA_RE_match (strip line) = None ->
     skipped path wanted line
     /\ forall before after,
          _parse_property_file path (before ++ line :: after) wanted
          = _parse_property_file path (before ++ after) wanted)
  /\ (forall path wanted line,
        skipped path wanted line
        <-> strip line = EmptyString
            \/ startswith_hash (strip line) = true
            \/ _DATA_RE_match (strip line) = None
            \/ exists f prop,
                 _DATA_RE_match (strip line) = Some (f, prop)
                 /\ not_wanted wanted prop = true)
  /\ (forall path wanted rows line f prop,
        _DATA_RE_match (strip line) = Some (f, prop) ->
        not_wanted wanted prop = false ->
        ~ codepoint_shape f ->
        exists s,
          parse_line path wanted rows line
          = inl (ValueError
                   ("invalid literal for int() with base 16: " ++ repr s)))
  /\ _DATA_RE_match (strip "zzzz; Foo") = None
  /\ (forall path wanted,
        _parse_property_file path ["zzzz; Foo"%string] wanted = inr []).
Proof.
  split; [|split; [|split; [|split; reflexivity]]].
  - intros path wanted line H.
    assert (skipped path wanted line) as S.
    { apply parse_line_skip.
      destruct H as [H|[H|H]]; auto using startswith_hash_strip. }
    split; [exact S|]. intros before after.
    apply parse_lines_skip. exact S.
  - intros path wanted line. split.
    + intros S.
      destruct (_DATA_RE_match (strip line)) as [[f prop]|] eqn:M; [|auto].
      destruct (not_wanted wanted prop) eqn:W.
      { right; right; right. exists f, prop. auto. }
      exfalso. specialize (S []).
      rewrite (parse_line_matched _ _ _ _ _ _ M W) in S.
      destruct (_parse_codepoint_range f) as [e|[l h]]; [discriminate S|].
      destruct ((l <? 0) || (h >? 0x10FFFF) || (l >? h)); discriminate S.
    + intros [H|[H|[H|(f & prop & M & W)]]];
        try (apply parse_line_skip; auto; fail).
      intros rows. apply (parse_line_unwanted _ _ _ _ _ _ M W).
  - intros path wanted rows line f prop M W N.
    rewrite (parse_line_matched _ _ _ _ _ _ M W).
    destruct (_parse_codepoint_range f) as [e|[l h]] eqn:P.
    + destruct (parse_codepoint_range_error f e P) as [s ->].
      exists s. reflexivity.
    + exfalso. apply N. apply codepoint_shape_parses; [|eauto].
      apply data_re_match_groups in M. tauto.
Qed.

Lemma parser_skips_lines_witness :
  (skipped "emoji-data.txt" None "   "
   /\ forall before after,
        _parse_property_file "emoji-data.txt" (before ++ "   "%string :: after) None
        = _parse_property_file "emoji-data.txt" (before ++ after) None)
  /\ (skipped "emoji-data.txt" None "# emoji-data.txt"
      /\ forall before after,
           _parse_property_file "emoji-data.txt"
             (before ++ "# emoji-data.txt"%string :: after) None
           = _parse_property_file "emoji-data.txt" (before ++ after) None)
  /\ (skipped "emoji-data.txt" None "zzzz; Foo"
      /\ forall before after,
           _parse_property_file "emoji-data.txt"
             (before ++ "zzzz; Foo"%string :: after) None
           = _parse_property_file "emoji-data.txt" (before ++ after) None)
  /\ (exists s,
        parse_line "GraphemeBreakProperty.txt" (Some gcb_props) []
          "1.2 ; L"
        = inl (ValueError
                 ("invalid literal for int() with base 16: " ++ repr s))).
Proof.
  split; [|split; [|split]].
  - apply (proj1 parser_skips_lines). left. reflexivity.
  - apply (proj1 parser_skips_lines). right. left. reflexivity.
  - apply (proj1 parser_skips_lines). right. right. reflexivity.
  - apply (proj1 (proj2 (proj2 parser_skips_lines))
             "GraphemeBreakProperty.txt"%string (Some gcb_props) []
             "1.2 ; L"%string "1.2"%string "L"%string);
      [reflexivity|reflexivity|exact dotted_number_has_no_shape].
Defined.

(** ** The emitter and the run once more *)

(** The symbol table names exactly the properties [main] asks the
    parser for. *)
Lemma gcb_map_keys p :
  match dict_get gcb_map p with Some _ => true | None => false end
  = existsb (String.eqb p) gcb_props.
Proof.
  unfold gcb_map, gcb_props. cbn [dict_get existsb].
  rewrite !(String.eqb_sym p).
  repeat match goal with
         | |- context [(?k =? p)%string] =>
             destruct (k =? p)%string; [reflexivity|]
         end.
  reflexivity.
Qed.

Lemma first_unmapped_props rows :
  first_unmapped rows
  = find (fun r => negb (existsb (String.eqb (val r)) gcb_props)) rows.
Proof.
  unfold first_unmapped. induction rows as [|r t IH]; [reflexivity|].
  cbn [find]. rewrite <- gcb_map_keys, IH.
  now destruct (dict_get gcb_map (val r)).
Qed.

Lemma emit_ranges_loop_eq rows : forall lines,
  emit_ranges_loop rows lines = lines ++ map range_line rows.
Proof.
  induction rows as [|[l h] t IH]; intros lines; simpl.
  - now rewrite app_nil_r.
  - now rewrite IH, <- app_assoc.
Qed.

Lemma emit_ranges8_loop_eq rows : forall lines,
  first_unmapped rows = None ->
  emit_ranges8_loop rows lines = inr (lines ++ map range8_line rows).
Proof.
  unfold first_unmapped.
  induction rows as [|[[l h] p] t IH]; intros lines;
    cbn [find emit_ranges8_loop map val snd].
  - now rewrite app_nil_r.
  - unfold range8_line at 1. cbn [lo hi val fst snd].
    destruct (dict_get gcb_map p) as [e|]; [|discriminate].
    intros H. now rewrite (IH _ H), <- app_assoc.
Qed.

(** X12: a table is its opening line, one line per row in the order of
    the rows, and the closing line.  [emit_ranges] always returns it;
    [emit_ranges8] returns it when every row's property is one of the
    thirteen names of the symbol table, and otherwise raises for the
    first row whose property is not. *)
Theorem tables_are_emitted_row_by_row :
  (forall name rows,
     emit_ranges name rows
     = join nl ((("static const zr_unicode_range_t " ++ name ++ "[] = {")%string
                 :: map range_line rows) ++ ["};"%string]))
  /\ (forall name rows,
        emit_ranges8 name rows
        = match find (fun r => negb (existsb (String.eqb (val r)) gcb_props))
                  rows with
          | Some r => inl (ValueError ("unmapped GCB prop: " ++ val r)%string)
          | None =>
              inr (join nl
                     ((("static const zr_unicode_range8_t " ++ name
                        ++ "[] = {")%string
                       :: map range8_line rows) ++ ["};"%string]))
          end).
Proof.
  split.
  - intros name rows. unfold emit_ranges. now rewrite emit_ranges_loop_eq.
  - intros name rows. unfold emit_ranges8. rewrite <- first_unmapped_props.
    pose proof (emit_ranges8_loop_spec rows
                  [("static const zr_unicode_range8_t " ++ name ++ "[] = {")%string])
      as S.
    destruct (first_unmapped rows) as [r|] eqn:U.
    + now rewrite S.
    + now rewrite (emit_ranges8_loop_eq rows _ U).
Qed.

Lemma wanted_rows_are_mapped rows :
  Forall (fun r => not_wanted (Some gcb_props) (val r) = false) rows ->
  first_unmapped rows = None.
Proof.
  rewrite first_unmapped_props.
  induction 1 as [|r t W _ IH]; [reflexivity|]. cbn [find].
  unfold not_wanted in W. rewrite W. exact IH.
Qed.

(** X13: the unmapped-symbol error is out of reach for the rows [main]
    hands to [emit_ranges8]: rows parsed with the GCB names as the
    wanted set carry only names of the symbol table, the valued merge
    keeps the values, and so [emit_ranges8] returns the table for the
    merged rows, one line per row. *)
Theorem gcb_rows_are_always_mapped path lines rows name :
  _parse_property_file path lines (Some gcb_props) = inr rows ->
  Forall (fun r => In (val r) gcb_props) (_merge_valued_ranges rows)
  /\ emit_ranges8 name (_merge_valued_ranges rows)
     = inr (join nl
              ((("static const zr_unicode_range8_t " ++ name ++ "[] = {")%string
                :: map range8_line (_merge_valued_ranges rows))
               ++ ["};"%string])).
Proof.
  intros G. apply parsed_rows_valid_for_wanted in G.
  apply (merge_valued_vals
           (fun v => not_wanted (Some gcb_props) v = false)) in G.
  split.
  - eapply Forall_impl; [|exact G]. intros r W. unfold not_wanted in W.
    apply negb_false_iff, existsb_exists in W. destruct W as (p & I & E).
    apply String.eqb_eq in E. now subst.
  - unfold emit_ranges8.
    now rewrite (emit_ranges8_loop_eq _ _ (wanted_rows_are_mapped _ G)).
Qed.

Lemma gcb_rows_are_always_mapped_witness :
  Forall (fun r => In (val r) gcb_props)
    (_merge_valued_ranges
       [(0x600, 0x605, "Prepend"%string); (0xD, 0xD, "CR"%string)])
  /\ emit_ranges8 "kGcbRanges"
       (_merge_valued_ranges
          [(0x600, 0x605, "Prepend"%string); (0xD, 0xD, "CR"%string)])
     = inr (join nl
              ((("static const zr_unicode_range8_t " ++ "kGcbRanges"
                 ++ "[] = {")%string
                :: map range8_line
                     (_merge_valued_ranges
                        [(0x600, 0x605, "Prepend"%string);
                         (0xD, 0xD, "CR"%string)]))
               ++ ["};"%string])).
Proof.
  apply (gcb_rows_are_always_mapped "GraphemeBreakProperty.txt"
           ["0600..0605 ; Prepend # Cf"; "000D ; CR"; "0041 ; Other"]%string).
  reflexivity.
Defined.

(** ** The source cache *)

Lemma write_bytes_same p d fs : write_bytes p d fs p = Some d.
Proof. unfold write_bytes. now rewrite String.eqb_refl. Qed.

Lemma write_kept p rest fs q : fs p = None -> fs q <> None ->
  write_failed p rest fs q = fs q.
Proof.
  intros Hp Hq. unfold write_failed.
  destruct (String.eqb_spec q p) as [->|_]; [congruence|reflexivity].
Qed.

Lemma path_join_inj dir n1 n2 : path_join dir n1 = path_join dir n2 -> n1 = n2.
Proof.
  unfold path_join. induction dir as [|c d IH]; simpl; intros H.
  - now inversion H.
  - inversion H. auto.
Qed.

(** What a download does, read backwards from its result: the call that
    raised is the last one logged, and only [path] can change. *)
Lemma download_cases os urlopen path url fs ev fs1 r :
  _download_to os urlopen path url fs = (ev, fs1, r) ->
  (exists e, mkdir_error os path = Some e
             /\ ev = [CacheMkdirParent path] /\ fs1 = fs /\ r = inl e)
  \/ (exists e, urlopen url = inl e
                /\ ev = [CacheMkdirParent path; UrlOpen url]
                /\ fs1 = fs /\ r = inl e)
  \/ (exists data e rest,
        urlopen url = inr data /\ write_error os path data = Some (e, rest)
        /\ ev = [CacheMkdirParent path; UrlOpen url; WriteBytes path data]
        /\ fs1 = write_failed path rest fs /\ r = inl e)
  \/ (exists data,
        urlopen url = inr data
        /\ ev = [CacheMkdirParent path; UrlOpen url; WriteBytes path data]
        /\ fs1 = write_bytes path data fs /\ r = inr tt).
Proof.
  unfold _download_to. intros H.
  destruct (mkdir_error os path) as [e|] eqn:M.
  - inversion H; subst. left. eauto.
  - right. destruct (urlopen url) as [e|data] eqn:U.
    + inversion H; subst. left. eauto.
    + right. destruct (write_error os path data) as [[e rest]|] eqn:W;
        inversion H; subst; [left|right]; eauto 10.
Qed.

Lemma download_keeps os urlopen path url fs ev fs1 r :
  _download_to os urlopen path url fs = (ev, fs1, r) -> fs path = None ->
  forall q, fs q <> None -> fs1 q = fs q.
Proof.
  intros H Hp q Hq. apply download_cases in H.
  destruct H as [(e & _ & _ & -> & _)|[(e & _ & _ & -> & _)|
                 [(d & e & l & _ & _ & _ & -> & _)|(d & _ & _ & -> & _)]]];
    try reflexivity; now apply write_kept.
Qed.

Lemma download_events os urlopen dir name url fs ev fs1 r :
  _download_to os urlopen (path_join dir name) url fs = (ev, fs1, r) ->
  forall e, In e ev -> download_event urlopen dir name url e.
Proof.
  intros H e He. apply download_cases in H. unfold download_event.
  destruct H as [(x & _ & -> & _)|[(x & _ & -> & _)|
                 [(d & x & l & U & _ & -> & _)|(d & U & -> & _)]]];
    simpl in He;
    repeat (destruct He as [<-|He]; [eauto 6|]); contradiction.
Qed.

Lemma download_ok os urlopen path url fs ev fs1 u :
  _download_to os urlopen path url fs = (ev, fs1, inr u) ->
  exists data, urlopen url = inr data /\ fs1 = write_bytes path data fs.
Proof.
  intros H. apply download_cases in H.
  destruct H as [(e & _ & _ & _ & C)|[(e & _ & _ & _ & C)|
                 [(d & e & l & _ & _ & _ & _ & C)|(d & U & _ & -> & _)]]];
    try discriminate C. eauto.
Qed.

(** One turn of the loop, read backwards from its result. *)
Lemma ensure_loop_cons os urlopen dir name url t out fs ev fs' r :
  ensure_loop os urlopen dir ((name, url) :: t) out fs = (ev, fs', r) ->
  (exists e, exists_error os (path_join dir name) = Some e
             /\ ev = [] /\ fs' = fs /\ r = inl e)
  \/ (fs (path_join dir name) <> None
      /\ ensure_loop os urlopen dir t (out ++ [(name, path_join dir name)]) fs
         = (ev, fs', r))
  \/ (fs (path_join dir name) = None
      /\ exists e,
           _download_to os urlopen (path_join dir name) url fs
           = (ev, fs', inl e) /\ r = inl e)
  \/ (fs (path_join dir name) = None
      /\ exists evd fs1 ev2,
           _download_to os urlopen (path_join dir name) url fs
           = (evd, fs1, inr tt)
           /\ ensure_loop os urlopen dir t
                (out ++ [(name, path_join dir name)]) fs1 = (ev2, fs', r)
           /\ ev = evd ++ ev2).
Proof.
  cbn [ensure_loop]. cbv zeta.
  generalize (path_join dir name). intros p H.
  destruct (exists_error os p) as [e|] eqn:X.
  - inversion H; subst. left. eauto.
  - right. destruct (fs p) as [old|] eqn:E.
    + left. split; [discriminate|exact H].
    + right.
      destruct (_download_to os urlopen p url fs) as [[evd fs1] [e|[]]] eqn:D.
      * left. split; [reflexivity|]. inversion H; subst. eauto.
      * right. split; [reflexivity|].
        destruct (ensure_loop os urlopen dir t (out ++ [(name, p)]) fs1)
          as [[ev2 fs2] r2] eqn:L.
        inversion H; subst. eauto 6.
Qed.

Lemma ensure_loop_keeps os urlopen dir urls : forall out fs ev fs' r,
  ensure_loop os urlopen dir urls out fs = (ev, fs', r) ->
  forall q, fs q <> None -> fs' q = fs q.
Proof.
  induction urls as [|[name url] t IH]; intros out fs ev fs' r H q Hq.
  - simpl in H. now inversion H.
  - apply ensure_loop_cons in H.
    destruct H as [(e & _ & _ & -> & _)|[[_ H]|[(Hp & e & D & _)|
                   (Hp & evd & fs1 & ev2 & D & H & _)]]].
    + reflexivity.
    + eapply IH; eassumption.
    + eapply download_keeps; eassumption.
    + pose proof (download_keeps _ _ _ _ _ _ _ _ D Hp q Hq) as K.
      rewrite (IH _ _ _ _ _ H q); [exact K|]. now rewrite K.
Qed.

Lemma ensure_loop_events os urlopen dir urls : forall out fs ev fs' r,
  ensure_loop os urlopen dir urls out fs = (ev, fs', r) ->
  forall e, In e ev ->
    exists name url,
      In (name, url) urls /\ fs (path_join dir name) = None
      /\ download_event urlopen dir name url e.
Proof.
  induction urls as [|[name url] t IH]; intros out fs ev fs' r H e He.
  - simpl in H. inversion H; subst. contradiction.
  - apply ensure_loop_cons in H.
    destruct H as [(x & _ & -> & _)|[[_ H]|[(Hp & x & D & _)|
                   (Hp & evd & fs1 & ev2 & D & H & ->)]]].
    + contradiction.
    + destruct (IH _ _ _ _ _ H e He) as (n & u & I & M & E).
      exists n, u. split; [now right|]. auto.
    + exists name, url. split; [now left|]. split; [exact Hp|].
      eapply download_events; eassumption.
    + apply in_app_or in He. destruct He as [He|He].
      * exists name, url. split; [now left|]. split; [exact Hp|].
        eapply download_events; eassumption.
      * destruct (IH _ _ _ _ _ H e He) as (n & u & I & M & E).
        exists n, u. split; [now right|]. split; [|exact E].
        destruct (fs (path_join dir n)) as [old|] eqn:F; [|reflexivity].
        rewrite (download_keeps _ _ _ _ _ _ _ _ D Hp (path_join dir n)) in M;
          congruence.
Qed.

Lemma ensure_loop_result os urlopen dir urls : forall out fs ev fs' srcs,
  ensure_loop os urlopen dir urls out fs = (ev, fs', inr srcs) ->
  srcs = out ++ map (fun nu => (fst nu, path_join dir (fst nu))) urls.
Proof.
  induction urls as [|[name url] t IH]; intros out fs ev fs' srcs H.
  - simpl in H. inversion H; subst. now rewrite app_nil_r.
  - apply ensure_loop_cons in H.
    destruct H as [(e & _ & _ & _ & C)|[[_ H]|[(_ & e & _ & C)|
                   (_ & evd & fs1 & ev2 & _ & H & _)]]];
      try discriminate C;
      rewrite (IH _ _ _ _ _ H), <- app_assoc; reflexivity.
Qed.

Lemma ensure_loop_contents os urlopen dir urls : forall out fs ev fs' srcs,
  NoDup (map fst urls) ->
  ensure_loop os urlopen dir urls out fs = (ev, fs', inr srcs) ->
  forall name url,
    In (name, url) urls ->
    match fs (path_join dir name) with
    | Some old => fs' (path_join dir name) = Some old
    | None => exists data,
        urlopen url = inr data /\ fs' (path_join dir name) = Some data
    end.
Proof.
  induction urls as [|[n0 u0] t IH]; intros out fs ev fs' srcs N H name url I;
    [contradiction|].
  simpl in N. inversion N as [|? ? Nn Nt]; subst.
  pose proof (ensure_loop_keeps _ _ _ _ _ _ _ _ _ H (path_join dir name)) as K.
  destruct (fs (path_join dir name)) as [old|] eqn:E;
    [apply K; discriminate|clear K].
  apply ensure_loop_cons in H.
  destruct H as [(e & _ & _ & _ & C)|[[Hp H]|[(_ & e & _ & C)|
                 (Hp & evd & fs1 & ev2 & D & H & _)]]];
    try discriminate C.
  - destruct I as [I|I]; [inversion I; subst; congruence|].
    specialize (IH _ _ _ _ _ Nt H name url I). now rewrite E in IH.
  - destruct (download_ok _ _ _ _ _ _ _ _ D) as (d & U & ->).
    destruct I as [I|I].
    + inversion I; subst. exists d. split; [exact U|].
      rewrite (ensure_loop_keeps _ _ _ _ _ _ _ _ _ H);
        rewrite write_bytes_same; [reflexivity|discriminate].
    + specialize (IH _ _ _ _ _ Nt H name url I).
      assert (write_bytes (path_join dir n0) d fs (path_join dir name) = None)
        as W.
      { unfold write_bytes.
        destruct (String.eqb_spec (path_join dir name) (path_join dir n0)) as [J|_];
          [|exact E].
        apply path_join_inj in J. subst. exfalso. apply Nn.
        apply in_map_iff. now exists (n0, url). }
      now rewrite W in IH.
Qed.

Lemma ensure_loop_cached os urlopen dir urls : forall out fs,
  (forall name url,
     In (name, url) urls ->
     exists_error os (path_join dir name) = None
     /\ fs (path_join dir name) <> None) ->
  ensure_loop os urlopen dir urls out fs
  = ([], fs, inr (out ++ map (fun nu => (fst nu, path_join dir (fst nu))) urls)).
Proof.
  induction urls as [|[name url] t IH]; intros out fs A; cbn [ensure_loop map].
  - now rewrite app_nil_r.
  - cbv zeta. destruct (A name url (or_introl eq_refl)) as [X E].
    rewrite X. destruct (fs (path_join dir name)) as [old|]; [|congruence].
    rewrite IH, <- app_assoc; [reflexivity|].
    intros n u I. apply (A n u). now right.
Qed.


Lemma URLS_names_distinct : NoDup (map fst URLS).
Proof.
  repeat constructor; simpl; intros H;
    repeat (destruct H as [H|H]; [discriminate H|]); exact H.
Qed.

(** X14: a source that is already in the cache is left alone: every
    path that exists before [_ensure_sources] runs holds the same
    contents afterwards, and every call logged (creating the parent
    directory, opening a URL, writing a file) belongs to the download of
    a source whose file was missing; this holds whether the run
    succeeds or raises, and whichever call raises. *)
Theorem cached_sources_are_left_alone os urlopen dir_path fs ev fs' r :
  _ensure_sources os urlopen dir_path fs = (ev, fs', r) ->
  (forall q, fs q <> None -> fs' q = fs q)
  /\ (forall e, In e ev ->
        exists name url,
          In (name, url) URLS /\ fs (path_join dir_path name) = None
          /\ download_event urlopen dir_path name url e).
Proof.
  unfold _ensure_sources. intros H. split.
  - eapply ensure_loop_keeps; eassumption.
  - eapply ensure_loop_events; eassumption.
Qed.

Lemma cached_sources_are_left_alone_witness :
  (forall q,
     (if (q =? "ucd/emoji-data.txt")%string then Some "cached"%string else None)
     <> None ->
     (if (q =? "ucd/emoji-data.txt")%string then Some "cached"%string else None)
     = (if (q =? "ucd/emoji-data.txt")%string then Some "cached"%string else None))
  /\ (forall e,
        In e [CacheMkdirParent (path_join "ucd" "GraphemeBreakProperty.txt");
              UrlOpen (BASE ++ "/auxiliary/GraphemeBreakProperty.txt")] ->
        exists name url,
          In (name, url) URLS
          /\ (if (path_join "ucd" name =? "ucd/emoji-data.txt")%string
              then Some "cached"%string else None) = None
          /\ download_event (fun _ => inl (URLError "offline")) "ucd" name url e).
Proof.
  apply (cached_sources_are_left_alone
           {| exists_error := fun _ => None; mkdir_error := fun _ => None;
              write_error := fun _ _ => None |}
           (fun _ => inl (URLError "offline")) "ucd"
           (fun q => if (q =? "ucd/emoji-data.txt")%string
                     then Some "cached"%string else None)
           [CacheMkdirParent (path_join "ucd" "GraphemeBreakProperty.txt");
            UrlOpen (BASE ++ "/auxiliary/GraphemeBreakProperty.txt")]
           (fun q => if (q =? "ucd/emoji-data.txt")%string
                     then Some "cached"%string else None)
           (inl (URLError "offline"))).
  reflexivity.
Defined.



(** X16: the cache is filled once: after a run of [_ensure_sources]
    that returned, a second run on the file system it left, in which
    [exists] raises for none of the three sources, opens no URL, writes
    nothing and returns the same paths, whatever the network would
    answer and whichever of [mkdir] and [write_bytes] would raise. *)
Theorem second_run_downloads_nothing
  os urlopen os' urlopen' dir_path fs ev fs' srcs :
  _ensure_sources os urlopen dir_path fs = (ev, fs', inr srcs) ->
  (forall name url,
     In (name, url) URLS ->
     exists_error os' (path_join dir_path name) = None) ->
  _ensure_sources os' urlopen' dir_path fs' = ([], fs', inr srcs).
Proof.
  unfold _ensure_sources. intros H Q.
  rewrite (ensure_loop_result _ _ _ _ _ _ _ _ _ H).
  apply ensure_loop_cached. intros name url I.
  split; [apply (Q name url I)|].
  pose proof (ensure_loop_contents _ _ _ _ _ _ _ _ _ URLS_names_distinct H
                name url I) as C.
  destruct (fs (path_join dir_path name)); [congruence|].
  destruct C as (d & _ & ->). discriminate.
Qed.

Lemma second_run_downloads_nothing_witness :
  _ensure_sources
    {| exists_error := fun _ => None;
       mkdir_error := fun _ => Some (OSError "Read-only file system");
       write_error := fun _ _ => None |}
    (fun _ => inl (URLError "offline")) "ucd"
    (write_bytes "ucd/EastAsianWidth.txt" "0020;Na"
       (fun q => if (q =? "ucd/EastAsianWidth.txt")%string
                 then None else Some "cached"%string))
  = ([],
     write_bytes "ucd/EastAsianWidth.txt" "0020;Na"
       (fun q => if (q =? "ucd/EastAsianWidth.txt")%string
                 then None else Some "cached"%string),
     inr (map (fun nu => (fst nu, path_join "ucd" (fst nu))) URLS)).
Proof.
  apply (second_run_downloads_nothing
           {| exists_error := fun _ => None; mkdir_error := fun _ => None;
              write_error := fun _ _ => None |}
           (fun _ => inr "0020;Na"%string)
           {| exists_error := fun _ => None;
              mkdir_error := fun _ => Some (OSError "Read-only file system");
              write_error := fun _ _ => None |}
           (fun _ => inl (URLError "offline")) "ucd"
           (fun q => if (q =? "ucd/EastAsianWidth.txt")%string
                     then None else Some "cached"%string)
           [CacheMkdirParent "ucd/EastAsianWidth.txt";
            UrlOpen (BASE ++ "/EastAsianWidth.txt");
            WriteBytes "ucd/EastAsianWidth.txt" "0020;Na"]).
  - reflexivity.
  - intros name url _. reflexivity.
Defined.


